(** * RxJS operator core: Distinct, IsEmpty and WindowWhen

    A shallow embedding of [src/operator/distinct.ts],
    [src/operator/isEmpty.ts] and [src/operator/windowWhen.ts].

    Every subscriber object becomes a record of its fields; a method that
    mutates [this] becomes a function from the record to the updated record.
    A user callback that may throw returns an [Outcome]. *)

From Stdlib Require Import ZArith.
From stdpp Require Import base option list numbers.

Set Default Proof Using "Type".

(** ** Notifications and callbacks *)

(** What a consumer can be told: [next(value)], [error(err)], [complete()]. *)
Inductive Notification (A Err : Type) : Type :=
  | Next (value : A)
  | Error (err : Err)
  | Complete.
Arguments Next {A Err} value.
Arguments Error {A Err} err.
Arguments Complete {A Err}.

(** The result of calling a user callback: it returns or it throws. *)
Inductive Outcome (Err A : Type) : Type :=
  | Returns (a : A)
  | Throws (err : Err).
Arguments Returns {Err A} a.
Arguments Throws {Err A} err.

(** The values a notification log carries, in order. *)
Definition nexts {A Err} (log : list (Notification A Err)) : list A :=
  omap (fun n => match n with Next v => Some v | _ => None end) log.

(** ** The Subscriber base class *)

(** Modelled from the spec: the base class [Subscriber] ([../Subscriber] is
    imported by every operator but is not among the sources). Spec 4.2: the
    public [next], [error] and [complete] first check the terminal-state
    flag and drop the call when it is set; otherwise they run the hook a
    subclass may override ([_next], [_error], [_complete]), and [error] and
    [complete] then close the subscriber. The hooks of the base class
    forward to the destination. *)
Class SubscriberHooks (S A Err : Type) : Type := {
  closed : S -> bool;
  unsubscribe : S -> S;
  _next : A -> S -> S;
  _error : Err -> S -> S;
  _complete : S -> S
}.
Global Hint Mode SubscriberHooks ! - - : typeclass_instances.

Section SubscriberBase.
Context {S A Err : Type} `{!SubscriberHooks S A Err}.

Definition next (value : A) (this : S) : S :=
  if closed this then this else _next value this.

Definition error (err : Err) (this : S) : S :=
  if closed this then this else unsubscribe (_error err this).

Definition complete (this : S) : S :=
  if closed this then this else unsubscribe (_complete this).
End SubscriberBase.

(** A plain disposable: spec 3, "exactly two states, active and closed". *)
Record Subscription : Type := { isUnsubscribed : bool }.

Definition Subscription_unsubscribe (_ : Subscription) : Subscription :=
  {| isUnsubscribed := true |}.

(** Modelled from the spec: the consumer at the end of a chain, a
    [Subscriber] whose hooks write down what they are given. It stands for
    the [destination] of an operator, and for a [Subject] (the broadcast
    channel WindowWhen uses for a window), which the spec treats as an
    external collaborator: what the record keeps is what the channel
    broadcasts. *)
Module Recorder.
Record t (A Err : Type) : Type := mk {
  stopped : bool;
  received : list (Notification A Err)
}.
Arguments mk {A Err} stopped received.
Arguments stopped {A Err} _.
Arguments received {A Err} _.

Definition create {A Err} : t A Err := mk false [].

Definition record {A Err} (n : Notification A Err) (d : t A Err) : t A Err :=
  mk (stopped d) (received d ++ [n]).

Definition stop {A Err} (d : t A Err) : t A Err :=
  mk true (received d).

#[global] Instance hooks {A Err} : SubscriberHooks (t A Err) A Err := {|
  closed := stopped;
  unsubscribe := stop;
  _next := fun v d => record (Next v) d;
  _error := fun e d => record (Error e) d;
  _complete := fun d => record Complete d
|}.
End Recorder.

(** ** Distinct ([src/operator/distinct.ts]) *)

Module Distinct.
Section Distinct.
Context {T Err : Type}.
(** JavaScript's [===] on [T]. *)
Variable strict_eq : T -> T -> bool.

Definition Comparator : Type := T -> T -> Outcome Err bool.

Record DistinctSubscriber : Type := mkDistinct {
  destination : Recorder.t T Err;
  selfClosed : bool;
  values : list T;
  compare : Comparator;
  flushSubscription : option Subscription
}.

(** [private compare(x, y) { return x === y; }] *)
Definition default_compare : Comparator :=
  fun x y => Returns (strict_eq x y).

(** The constructor: [compare] is kept when it is a function, and a
    subscription to [flushes] is added when [flushes] is given. *)
Definition new_DistinctSubscriber (dest : Recorder.t T Err)
    (cmp : option Comparator) (flushes : bool) : DistinctSubscriber :=
  {| destination := dest;
     selfClosed := false;
     values := [];
     compare := default (default_compare) cmp;
     flushSubscription :=
       if flushes then Some {| isUnsubscribed := false |} else None |}.

(** [flush() { this.values.length = 0; }] *)
Definition flush (this : DistinctSubscriber) : DistinctSubscriber :=
  {| destination := destination this;
     selfClosed := selfClosed this;
     values := [];
     compare := compare this;
     flushSubscription := flushSubscription this |}.

(** The [for] loop of [_next] with its [try]/[catch]: the three ways it
    can end. *)
Inductive Scan : Type :=
  | Found
  | NotFound
  | Caught (err : Err).

Fixpoint scan (cmp : Comparator) (vals : list T) (value : T) : Scan :=
  match vals with
  | [] => NotFound
  | existing :: rest =>
      match cmp existing value with
      | Throws err => Caught err
      | Returns true => Found
      | Returns false => scan cmp rest value
      end
  end.

Definition with_destination (d : Recorder.t T Err)
    (this : DistinctSubscriber) : DistinctSubscriber :=
  {| destination := d;
     selfClosed := selfClosed this;
     values := values this;
     compare := compare this;
     flushSubscription := flushSubscription this |}.

Definition push (value : T) (this : DistinctSubscriber) : DistinctSubscriber :=
  {| destination := destination this;
     selfClosed := selfClosed this;
     values := values this ++ [value];
     compare := compare this;
     flushSubscription := flushSubscription this |}.

Definition Distinct_next (value : T) (this : DistinctSubscriber)
    : DistinctSubscriber :=
  match scan (compare this) (values this) value with
  | Found => this
  | Caught err => with_destination (error err (destination this)) this
  | NotFound =>
      let this := push value this in
      with_destination (next value (destination this)) this
  end.

(** Modelled from the spec: closing. A subscriber is closed once it has
    unsubscribed itself or once its destination has closed (spec 4.7:
    "any further source activity is ignored because the chain is already
    closed"; spec 4.5: after [destination.error] the "Subscriber closes
    per normal error handling"). Unsubscribing disposes the children,
    here the subscription to [flushes]. *)
Definition Distinct_closed (this : DistinctSubscriber) : bool :=
  selfClosed this || closed (destination this).

Definition Distinct_unsubscribe (this : DistinctSubscriber)
    : DistinctSubscriber :=
  {| destination := destination this;
     selfClosed := true;
     values := values this;
     compare := compare this;
     flushSubscription := Subscription_unsubscribe <$> flushSubscription this |}.

(** [_error] is inherited and [_complete] calls [super._complete()]. *)
#[global] Instance hooks : SubscriberHooks DistinctSubscriber T Err := {|
  closed := Distinct_closed;
  unsubscribe := Distinct_unsubscribe;
  _next := Distinct_next;
  _error := fun err this =>
    with_destination (error err (destination this)) this;
  _complete := fun this =>
    with_destination (complete (destination this)) this
|}.

(** [FlushSubscriber] overrides the public methods themselves, so none of
    them is gated by a flag of its own; it has no destination. The value
    [flushes] emitted is not a parameter of [next()]. *)
Definition FlushSubscriber_next {F : Type} (_ : F)
    (parent : DistinctSubscriber) : DistinctSubscriber :=
  flush parent.

Definition FlushSubscriber_complete (parent : DistinctSubscriber)
    : DistinctSubscriber :=
  parent.

Definition FlushSubscriber_error (err : Err) (parent : DistinctSubscriber)
    : DistinctSubscriber :=
  error err parent.

(** What can reach a Distinct subscriber: its source and [flushes]. *)
Inductive Event (F : Type) : Type :=
  | SrcNext (value : T)
  | SrcError (err : Err)
  | SrcComplete
  | FlushNext (x : F)
  | FlushError (err : Err)
  | FlushComplete.

Definition step {F} (this : DistinctSubscriber) (ev : Event F)
    : DistinctSubscriber :=
  match ev with
  | SrcNext _ v => next v this
  | SrcError _ e => error e this
  | SrcComplete _ => complete this
  | FlushNext _ x => FlushSubscriber_next x this
  | FlushError _ e => FlushSubscriber_error e this
  | FlushComplete _ => FlushSubscriber_complete this
  end.

Definition run {F} (trace : list (Event F)) (this : DistinctSubscriber)
    : DistinctSubscriber :=
  foldl step this trace.

(** What the destination was given. *)
Definition output (this : DistinctSubscriber) : list (Notification T Err) :=
  Recorder.received (destination this).

Definition src_values {F} (trace : list (Event F)) : list T :=
  omap (fun ev => match ev with SrcNext _ v => Some v | _ => None end) trace.
End Distinct.
Arguments DistinctSubscriber : clear implicits.
Arguments Event : clear implicits.
Arguments SrcNext {T Err F} value.
Arguments SrcError {T Err F} err.
Arguments SrcComplete {T Err F}.
Arguments FlushNext {T Err F} x.
Arguments FlushError {T Err F} err.
Arguments FlushComplete {T Err F}.
End Distinct.

(** ** IsEmpty ([src/operator/isEmpty.ts]) *)

Module IsEmpty.
Section IsEmpty.
Context {T Err : Type}.

Record IsEmptySubscriber : Type := mkIsEmpty {
  destination : Recorder.t bool Err;
  selfClosed : bool
}.

Definition new_IsEmptySubscriber (dest : Recorder.t bool Err)
    : IsEmptySubscriber :=
  {| destination := dest; selfClosed := false |}.

Definition with_destination (d : Recorder.t bool Err)
    (this : IsEmptySubscriber) : IsEmptySubscriber :=
  {| destination := d; selfClosed := selfClosed this |}.

(** [destination.next(isEmpty); destination.complete();] *)
Definition notifyComplete (isEmpty : bool) (this : IsEmptySubscriber)
    : IsEmptySubscriber :=
  let destination := destination this in
  let destination := next isEmpty destination in
  let destination := complete destination in
  with_destination destination this.

(** Modelled from the spec: closing, as for Distinct (spec 4.7: "the
    source subscription and this Subscriber close; any further source
    activity is ignored because the chain is already closed"). The source
    subscription is the subscriber itself (spec 4.3). *)
Definition IsEmpty_closed (this : IsEmptySubscriber) : bool :=
  selfClosed this || closed (destination this).

Definition IsEmpty_unsubscribe (this : IsEmptySubscriber)
    : IsEmptySubscriber :=
  {| destination := destination this; selfClosed := true |}.

(** [_next] and [_complete] are overridden, [_error] is inherited. *)
#[global] Instance hooks : SubscriberHooks IsEmptySubscriber T Err := {|
  closed := IsEmpty_closed;
  unsubscribe := IsEmpty_unsubscribe;
  _next := fun _ this => notifyComplete false this;
  _error := fun err this =>
    with_destination (error err (destination this)) this;
  _complete := fun this => notifyComplete true this
|}.

Inductive Event : Type :=
  | SrcNext (value : T)
  | SrcError (err : Err)
  | SrcComplete.

Definition step (this : IsEmptySubscriber) (ev : Event) : IsEmptySubscriber :=
  match ev with
  | SrcNext v => next v this
  | SrcError e => error e this
  | SrcComplete => complete this
  end.

Definition run (trace : list Event) (this : IsEmptySubscriber)
    : IsEmptySubscriber :=
  foldl step this trace.

Definition output (this : IsEmptySubscriber) : list (Notification bool Err) :=
  Recorder.received (destination this).
End IsEmpty.
Arguments IsEmptySubscriber : clear implicits.
Arguments Event : clear implicits.
End IsEmpty.

(** ** WindowWhen ([src/operator/windowWhen.ts]) *)

Module WindowWhen.
Section WindowWhen.
(** [T]: source values; [R]: values of a closing notifier; [Obs]: the
    observables [closingSelector] returns. *)
Context {T R Err Obs : Type}.

(** A window is a [Subject] object; a reference to it is its position in
    the list of the subjects created so far. *)
Definition WindowRef : Type := nat.

(** [closingSelector] takes no argument and may answer differently from
    one call to the next: its answer is a function of how many times it
    has been called. *)
Definition ClosingSelector : Type := nat -> Outcome Err Obs.

Record WindowSubscriber : Type := mkWindow {
  destination : Recorder.t WindowRef Err;
  selfClosed : bool;
  subjects : list (Recorder.t T Err);
  window : option WindowRef;
  closingNotification : option Subscription;
  closingSelector : ClosingSelector;
  selectorCalls : nat
}.

Definition with_destination (d : Recorder.t WindowRef Err)
    (this : WindowSubscriber) : WindowSubscriber :=
  mkWindow d (selfClosed this) (subjects this) (window this)
           (closingNotification this) (closingSelector this)
           (selectorCalls this).

Definition with_subjects (l : list (Recorder.t T Err))
    (this : WindowSubscriber) : WindowSubscriber :=
  mkWindow (destination this) (selfClosed this) l (window this)
           (closingNotification this) (closingSelector this)
           (selectorCalls this).

Definition with_window (w : option WindowRef)
    (this : WindowSubscriber) : WindowSubscriber :=
  mkWindow (destination this) (selfClosed this) (subjects this) w
           (closingNotification this) (closingSelector this)
           (selectorCalls this).

Definition with_closingNotification (c : option Subscription)
    (this : WindowSubscriber) : WindowSubscriber :=
  mkWindow (destination this) (selfClosed this) (subjects this)
           (window this) c (closingSelector this) (selectorCalls this).

Definition with_selectorCalls (n : nat)
    (this : WindowSubscriber) : WindowSubscriber :=
  mkWindow (destination this) (selfClosed this) (subjects this)
           (window this) (closingNotification this)
           (closingSelector this) n.

(** [this.window.m(...)]: a method call on the subject [this.window]
    refers to. The constructor opens a window before anything else can
    happen, so [this.window] is set whenever a hook runs. *)
Definition on_window (m : Recorder.t T Err -> Recorder.t T Err)
    (this : WindowSubscriber) : WindowSubscriber :=
  match window this with
  | Some w => with_subjects (alter m w (subjects this)) this
  | None => this
  end.

(** [tryCatch(this.closingSelector)()] *)
Definition call_closingSelector (this : WindowSubscriber)
    : Outcome Err Obs * WindowSubscriber :=
  (closingSelector this (selectorCalls this),
   with_selectorCalls (Datatypes.S (selectorCalls this)) this).

(** Modelled from the spec: [subscribeToResult] (spec 4.4) subscribes the
    notifier through a fresh [InnerSubscriber] and returns the resulting
    subscription, which is active. The notifier's events arrive later, as
    events of their own. *)
Definition subscribeToResult (_ : Obs) : Subscription :=
  {| isUnsubscribed := false |}.

(** [if (this.closingNotification) this.closingNotification.unsubscribe()] *)
Definition unsubscribeClosingNotification (this : WindowSubscriber)
    : WindowSubscriber :=
  with_closingNotification
    (Subscription_unsubscribe <$> closingNotification this) this.

(** [innerSub] is [null] (the call from the constructor) or the
    InnerSubscriber of the notifier that has just fired, which is the
    subscription [closingNotification] holds. *)
Definition openWindow (innerSub : bool) (this : WindowSubscriber)
    : WindowSubscriber :=
  let this :=
    if innerSub then unsubscribeClosingNotification this else this in
  (* prevWindow.complete() *)
  let this := on_window complete this in
  (* this.window = new Subject() *)
  let w := length (subjects this) in
  let this :=
    with_window (Some w)
      (with_subjects (subjects this ++ [Recorder.create]) this) in
  let this := with_destination (next w (destination this)) this in
  let '(closingNotifier, this) := call_closingSelector this in
  match closingNotifier with
  | Throws err =>
      let this := with_destination (error err (destination this)) this in
      on_window (error err) this
  | Returns notifier =>
      with_closingNotification (Some (subscribeToResult notifier)) this
  end.

Definition new_WindowSubscriber (dest : Recorder.t WindowRef Err)
    (selector : ClosingSelector) : WindowSubscriber :=
  openWindow false
    {| destination := dest;
       selfClosed := false;
       subjects := [];
       window := None;
       closingNotification := None;
       closingSelector := selector;
       selectorCalls := 0 |}.

Definition Window_next (value : T) (this : WindowSubscriber)
    : WindowSubscriber :=
  on_window (next value) this.

Definition Window_error (err : Err) (this : WindowSubscriber)
    : WindowSubscriber :=
  let this := on_window (error err) this in
  let this := with_destination (error err (destination this)) this in
  unsubscribeClosingNotification this.

Definition Window_complete (this : WindowSubscriber) : WindowSubscriber :=
  let this := on_window complete this in
  let this := with_destination (complete (destination this)) this in
  unsubscribeClosingNotification this.

(** Modelled from the spec: closing, as for Distinct. Unsubscribing
    disposes the children, of which the record keeps the closing-notifier
    subscription. The windows [openWindow] adds as children
    ([this.add(window)]) are not kept as such: [unsubscribe] is reached
    through [error] and [complete] only, after [_error] or [_complete] has
    ended the current window, and the windows before it were completed
    when they were cut, so there is no open window left to dispose. An
    unsubscription from downstream while a window is open is not an event
    of the model. *)
Definition Window_closed (this : WindowSubscriber) : bool :=
  selfClosed this || closed (destination this).

Definition Window_unsubscribe (this : WindowSubscriber) : WindowSubscriber :=
  let this := unsubscribeClosingNotification this in
  mkWindow (destination this) true (subjects this) (window this)
           (closingNotification this) (closingSelector this)
           (selectorCalls this).

#[global] Instance hooks : SubscriberHooks WindowSubscriber T Err := {|
  closed := Window_closed;
  unsubscribe := Window_unsubscribe;
  _next := Window_next;
  _error := Window_error;
  _complete := Window_complete
|}.

Definition notifyNext (innerValue : R) (this : WindowSubscriber)
    : WindowSubscriber :=
  openWindow true this.

Definition notifyError (err : Err) (this : WindowSubscriber)
    : WindowSubscriber :=
  _error err this.

Definition notifyComplete (this : WindowSubscriber) : WindowSubscriber :=
  openWindow true this.

(** Modelled from the spec: the [InnerSubscriber] (spec 4.4) is a
    Subscriber, so it drops what arrives after it was unsubscribed, and it
    reports each event to the outer subscriber through exactly one of
    [notifyNext], [notifyError], [notifyComplete]. *)
Definition notifier_active (this : WindowSubscriber) : bool :=
  match closingNotification this with
  | Some sub => negb (isUnsubscribed sub)
  | None => false
  end.

Definition Inner_next (innerValue : R) (this : WindowSubscriber)
    : WindowSubscriber :=
  if notifier_active this then notifyNext innerValue this else this.

Definition Inner_error (err : Err) (this : WindowSubscriber)
    : WindowSubscriber :=
  if notifier_active this
  then unsubscribeClosingNotification (notifyError err this)
  else this.

Definition Inner_complete (this : WindowSubscriber) : WindowSubscriber :=
  if notifier_active this then notifyComplete this else this.

Inductive Event : Type :=
  | SrcNext (value : T)
  | SrcError (err : Err)
  | SrcComplete
  | NotifierNext (innerValue : R)
  | NotifierError (err : Err)
  | NotifierComplete.

Definition step (this : WindowSubscriber) (ev : Event) : WindowSubscriber :=
  match ev with
  | SrcNext v => next v this
  | SrcError e => error e this
  | SrcComplete => complete this
  | NotifierNext x => Inner_next x this
  | NotifierError e => Inner_error e this
  | NotifierComplete => Inner_complete this
  end.

Definition run (trace : list Event) (this : WindowSubscriber)
    : WindowSubscriber :=
  foldl step this trace.

(** The window references the outer stream emitted, in order. *)
Definition emitted_windows (this : WindowSubscriber) : list WindowRef :=
  nexts (Recorder.received (destination this)).

(** The values a window was given. *)
Definition contents (w : Recorder.t T Err) : list T :=
  nexts (Recorder.received w).

(** The contents of the emitted windows, one after the other. *)
Definition concatenated (this : WindowSubscriber) : list T :=
  mjoin (omap (fun w => contents <$> (subjects this !! w))
              (emitted_windows this)).

Definition src_values (trace : list Event) : list T :=
  omap (fun ev => match ev with SrcNext v => Some v | _ => None end) trace.

(** How many values, and how many completions, the closing notifiers
    delivered. *)
Definition is_notifier_value (ev : Event) : bool :=
  match ev with NotifierNext _ => true | _ => false end.

Definition is_notifier_completion (ev : Event) : bool :=
  match ev with NotifierComplete => true | _ => false end.

Definition fires (trace : list Event) : nat :=
  length (List.filter is_notifier_value trace).

Definition notifier_completions (trace : list Event) : nat :=
  length (List.filter is_notifier_completion trace).
End WindowWhen.
Arguments WindowSubscriber : clear implicits.
Arguments Event : clear implicits.
Arguments ClosingSelector : clear implicits.
End WindowWhen.

(** ** The spec's reading of Distinct *)

(** The algorithm of spec 4.5 for a comparator that returns, on a whole
    source sequence: a value is suppressed when [compare(existing, value)]
    is true for an entry of the memory, and otherwise appended to the memory
    and forwarded. *)
Fixpoint distinct_by_spec {T : Type} (compare : T -> T -> bool)
    (memory source : list T) : list T :=
  match source with
  | [] => []
  | value :: rest =>
      if existsb (fun existing => compare existing value) memory
      then distinct_by_spec compare memory rest
      else value :: distinct_by_spec compare (memory ++ [value]) rest
  end.

(** [compare(existing, value)] is false for every value of the memory. *)
Definition all_differ {T Err : Type} (cmp : @Distinct.Comparator T Err)
    (vals : list T) (value : T) : Prop :=
  Forall (fun existing => cmp existing value = Returns false) vals.

(** ** Concrete streams used in the examples *)

Module Examples.
Import Distinct.

(** Numbers with [===]; errors are numbered. *)
Definition fresh (cmp : option (@Comparator Z nat)) (flushes : bool)
    : DistinctSubscriber Z nat :=
  new_DistinctSubscriber Z.eqb Recorder.create cmp flushes.

(** [(x, y) => x % 3 === y % 3] *)
Definition mod3 : @Comparator Z nat :=
  fun x y => Returns (Z.rem x 3 =? Z.rem y 3)%Z.

(** A comparator that throws error [7] when asked about [3], and is
    [===] otherwise. *)
Definition throws_on_3 : @Comparator Z nat :=
  fun x y => if (y =? 3)%Z then Throws 7 else Returns (x =? y)%Z.

Definition source (vs : list Z) : list (Event Z nat Z) :=
  SrcNext <$> vs.

(** A subscriber that has seen 1 and 2. *)
Definition after_12 (cmp : option (@Comparator Z nat))
    : DistinctSubscriber Z nat :=
  run (source [1; 2]%Z) (fresh cmp false).

(** A subscriber that has seen 1, 2 and 3. *)
Definition after_123 (cmp : option (@Comparator Z nat))
    : DistinctSubscriber Z nat :=
  run (source [1; 2; 3]%Z) (fresh cmp false).
End Examples.

(** What IsEmpty owes its destination, by the first event of the source. *)
Definition isEmpty_answer {T Err : Type} (trace : list (IsEmpty.Event T Err))
    : list (Notification bool Err) :=
  match trace with
  | [] => []
  | IsEmpty.SrcNext _ :: _ => [Next false; Complete]
  | IsEmpty.SrcComplete :: _ => [Next true; Complete]
  | IsEmpty.SrcError err :: _ => [Error err]
  end.

(** Streams for the WindowWhen examples: numbers as values, numbered
    errors, and a notifier that carries no information. *)
Module WindowExamples.
Import WindowWhen.

Definition always_returns : ClosingSelector nat unit :=
  fun _ => Returns ().

Definition always_throws : ClosingSelector nat unit :=
  fun _ => Throws 5.

Definition fresh (selector : ClosingSelector nat unit)
    : WindowSubscriber Z nat unit :=
  new_WindowSubscriber Recorder.create selector.

(** Two values, a notifier value, a value, a notifier completion, and a
    last value. *)
Definition mixed : list (Event Z Z nat) :=
  [SrcNext 1; SrcNext 2; NotifierNext 0; SrcNext 3; NotifierComplete;
   SrcNext 4]%Z.

(** A notifier that completes without a value. *)
Definition completes_silently : list (Event Z Z nat) :=
  [NotifierComplete].
End WindowExamples.

(** ** Vocabulary for the WindowWhen claims *)

Section WindowVocabulary.
Import WindowWhen.
Context {T R Err Obs : Type}.

(** A closing selector that returns a notifier at every call. *)
Definition never_throws (selector : ClosingSelector Err Obs) : Prop :=
  forall n, exists notifier, selector n = Returns notifier.

(** The events of a source that is alive and of notifiers that do not
    fail: source values, notifier values and notifier completions. *)
Definition windowing_event (ev : Event T R Err) : bool :=
  match ev with
  | SrcNext _ | NotifierNext _ | NotifierComplete => true
  | SrcError _ | SrcComplete | NotifierError _ => false
  end.

(** The windows that have not been completed or errored. *)
Definition is_open (this : WindowSubscriber T Err Obs) (w : WindowRef)
    : bool :=
  match subjects this !! w with
  | Some subject => negb (Recorder.stopped subject)
  | None => false
  end.

Definition open_windows (this : WindowSubscriber T Err Obs)
    : list WindowRef :=
  List.filter (is_open this) (seq 0 (length (subjects this))).

(** The state "window-open" of spec 4.6: the subscriber and its
    destination are not closed, a closing notifier is subscribed, the
    window [this.window] refers to is the last one created and is open,
    and the windows before it are finished. *)
Record window_open (this : WindowSubscriber T Err Obs) : Prop := {
  window_open_self : selfClosed this = false;
  window_open_destination : Recorder.stopped (destination this) = false;
  window_open_notifier :
    closingNotification this = Some {| isUnsubscribed := false |};
  window_open_subjects :
    exists finished current,
      subjects this = finished ++ [current]
      /\ window this = Some (length finished)
      /\ Recorder.stopped current = false
      /\ Forall (fun subject => Recorder.stopped subject = true) finished
}.

(** How many windows an event of the closing notifier opens. *)
Definition opens (ev : Event T R Err) : nat :=
  if is_notifier_value ev || is_notifier_completion ev then 1 else 0.

(** The contents of all the windows created so far, in creation order. *)
Definition all_contents (this : WindowSubscriber T Err Obs) : list T :=
  mjoin (contents <$> subjects this).
End WindowVocabulary.

(** ** The operators: the factories [lift] calls *)

(** [DistinctOperator], [IsEmptyOperator] and [WindowOperator] keep the
    parameters of the operator; [call] builds the subscriber the source
    pushes into from the subscriber of the consumer. *)
Module Operators.
Section Operators.
Context {T Err Obs : Type}.

Record DistinctOperator : Type := {
  DistinctOperator_compare : option (@Distinct.Comparator T Err);
  DistinctOperator_flushes : bool
}.

Definition DistinctOperator_call (strict_eq : T -> T -> bool)
    (op : DistinctOperator) (subscriber : Recorder.t T Err)
    : Distinct.DistinctSubscriber T Err :=
  Distinct.new_DistinctSubscriber strict_eq subscriber
    (DistinctOperator_compare op) (DistinctOperator_flushes op).

Definition IsEmptyOperator_call (observer : Recorder.t bool Err)
    : IsEmpty.IsEmptySubscriber Err :=
  IsEmpty.new_IsEmptySubscriber observer.

Record WindowOperator : Type := {
  WindowOperator_closingSelector : WindowWhen.ClosingSelector Err Obs
}.

Definition WindowOperator_call (op : WindowOperator)
    (subscriber : Recorder.t WindowWhen.WindowRef Err)
    : WindowWhen.WindowSubscriber T Err Obs :=
  WindowWhen.new_WindowSubscriber subscriber
    (WindowOperator_closingSelector op).
End Operators.
Arguments DistinctOperator : clear implicits.
Arguments WindowOperator : clear implicits.
End Operators.

(** ** Vocabulary for the further properties *)

(** Whether [flushes] emits a value in a trace. *)
Definition has_flush {T Err F : Type} (trace : list (Distinct.Event T Err F))
    : bool :=
  existsb
    (fun ev => match ev with Distinct.FlushNext _ => true | _ => false end)
    trace.

(** [compare(x, y)] is false for every earlier [x] and later [y] of a list. *)
Definition pairwise_differ {T Err : Type} (cmp : @Distinct.Comparator T Err)
    (l : list T) : Prop :=
  ForallOrdPairs (fun x y => cmp x y = Returns false) l.

(** A source of IsEmpty with its values replaced through [f]. *)
Definition map_values {T U Err : Type} (f : T -> U)
    (ev : IsEmpty.Event T Err) : IsEmpty.Event U Err :=
  match ev with
  | IsEmpty.SrcNext value => IsEmpty.SrcNext (f value)
  | IsEmpty.SrcError err => IsEmpty.SrcError err
  | IsEmpty.SrcComplete => IsEmpty.SrcComplete
  end.

(** A closing selector that returns at the first call and throws error 5
    from the second call on. *)
Definition throws_from_second_call : WindowWhen.ClosingSelector nat unit :=
  fun calls => match calls with 0 => Returns () | _ => Throws 5 end.

Section WindowFurtherVocabulary.
Import WindowWhen.
Context {T R Err Obs : Type}.

(** The terminal state of spec 4.6: the subscriber is closed, no closing
    notifier is subscribed, and no window is open. *)
Record halted (this : WindowSubscriber T Err Obs) : Prop := {
  halted_closed : Window_closed this = true;
  halted_notifier : notifier_active this = false;
  halted_subjects :
    Forall (fun subject => Recorder.stopped subject = true) (subjects this)
}.

(** What each window has been given after a trace of source values and
    notifier values and completions: a window is given the source values
    that arrive while it is the current one, and a completion when the
    notifier cuts it. [current] is what the current window holds already. *)
Fixpoint window_logs (current : list T) (trace : list (Event T R Err))
    : list (Recorder.t T Err) :=
  match trace with
  | [] => [Recorder.mk false (Next <$> current)]
  | SrcNext value :: rest => window_logs (current ++ [value]) rest
  | NotifierNext _ :: rest | NotifierComplete :: rest =>
      Recorder.mk true ((Next <$> current) ++ [Complete])
        :: window_logs [] rest
  | _ :: rest => window_logs current rest
  end.
End WindowFurtherVocabulary.

(** * Proofs *)

(** ** The recording consumer *)

Section RecorderFacts.
Context {A Err : Type}.
Implicit Types (d : Recorder.t A Err).

Lemma recorder_next_open d v :
  closed d = false ->
  next v d = Recorder.mk false (Recorder.received d ++ [Next v]).
Proof.
  destruct d as [st log]; cbn; intros ->; reflexivity.
Qed.

Lemma recorder_error_open d e :
  closed d = false ->
  error e d = Recorder.mk true (Recorder.received d ++ [Error e]).
Proof.
  destruct d as [st log]; cbn; intros ->; reflexivity.
Qed.

Lemma recorder_complete_open d :
  closed d = false ->
  complete d = Recorder.mk true (Recorder.received d ++ [Complete]).
Proof.
  destruct d as [st log]; cbn; intros ->; reflexivity.
Qed.

Lemma recorder_next_closed d v : closed d = true -> next v d = d.
Proof. unfold next; intros ->; reflexivity. Qed.

Lemma recorder_error_closed d e : closed d = true -> error e d = d.
Proof. unfold error; intros ->; reflexivity. Qed.

Lemma recorder_complete_closed d : closed d = true -> complete d = d.
Proof. unfold complete; intros ->; reflexivity. Qed.
End RecorderFacts.

Lemma nexts_app {A Err} (l1 l2 : list (Notification A Err)) :
  nexts (l1 ++ l2) = nexts l1 ++ nexts l2.
Proof. apply omap_app. Qed.

Lemma app_singleton_neq {A} (l : list A) (x : A) : l ++ [x] <> l.
Proof.
  intros H. apply (f_equal length) in H. rewrite length_app in H.
  cbn in H. lia.
Qed.

(** ** Distinct *)

Section DistinctFacts.
Import Distinct.
Context {T Err : Type}.
Implicit Types (this : DistinctSubscriber T Err) (cmp : @Comparator T Err).

Lemma scan_NotFound cmp vals value :
  scan cmp vals value = NotFound <-> all_differ cmp vals value.
Proof.
  unfold all_differ. induction vals as [|x vals IH]; cbn.
  - split; [constructor | reflexivity].
  - destruct (cmp x value) as [[|]|e] eqn:Hx.
    + split; [discriminate | inversion 1; congruence].
    + rewrite IH. split; [by constructor | by inversion 1].
    + split; [discriminate | inversion 1; congruence].
Qed.

Lemma scan_Caught cmp vals value err :
  scan cmp vals value = Caught err <->
  exists before existing after,
    vals = before ++ existing :: after
    /\ all_differ cmp before value
    /\ cmp existing value = Throws err.
Proof.
  unfold all_differ. induction vals as [|x vals IH]; cbn.
  - split; [discriminate |].
    intros (before & existing & after & H & _). by destruct before.
  - destruct (cmp x value) as [[|]|e] eqn:Hx.
    + split; [discriminate |].
      intros ([|y before] & existing & after & H & Hall & Hthrow);
        simplify_eq/=; [congruence |].
      inversion Hall; congruence.
    + rewrite IH. split.
      * intros (before & existing & after & -> & Hall & Hthrow).
        exists (x :: before), existing, after. by repeat split; [constructor|].
      * intros ([|y before] & existing & after & H & Hall & Hthrow);
          simplify_eq/=; [congruence |].
        exists before, existing, after. by inversion Hall.
    + split.
      * intros [= ->]. by exists [], x, vals.
      * intros ([|y before] & existing & after & H & Hall & Hthrow);
          simplify_eq/=; [congruence |].
        inversion Hall; congruence.
Qed.

Lemma distinct_closed_dest this :
  closed this = false -> closed (destination this) = false.
Proof.
  cbn. unfold Distinct_closed. intros H.
  by apply orb_false_iff in H as [_ H].
Qed.

(** The three outcomes of [next] on a subscriber that is not closed. *)
Lemma distinct_next_NotFound this value :
  closed this = false ->
  scan (compare this) (values this) value = NotFound ->
  next value this =
    mkDistinct
      (Recorder.mk false (output this ++ [Next value]))
      (selfClosed this) (values this ++ [value]) (compare this)
      (flushSubscription this).
Proof.
  intros Hopen Hscan. pose proof (distinct_closed_dest _ Hopen) as Hd.
  unfold next. rewrite Hopen. cbn. unfold Distinct_next. rewrite Hscan.
  unfold with_destination, push; cbn.
  by rewrite (recorder_next_open _ _ Hd).
Qed.

Lemma distinct_next_Found this value :
  closed this = false ->
  scan (compare this) (values this) value = Found ->
  next value this = this.
Proof.
  intros Hopen Hscan. unfold next. rewrite Hopen. cbn.
  unfold Distinct_next. by rewrite Hscan.
Qed.

Lemma distinct_next_Caught this value err :
  closed this = false ->
  scan (compare this) (values this) value = Caught err ->
  next value this =
    mkDistinct
      (Recorder.mk true (output this ++ [Error err]))
      (selfClosed this) (values this) (compare this)
      (flushSubscription this).
Proof.
  intros Hopen Hscan. pose proof (distinct_closed_dest _ Hopen) as Hd.
  unfold next. rewrite Hopen. cbn. unfold Distinct_next. rewrite Hscan.
  unfold with_destination; cbn.
  by rewrite (recorder_error_open _ _ Hd).
Qed.
End DistinctFacts.

Section DistinctTraces.
Import Distinct.
Context {T Err F : Type}.
Implicit Types (this : DistinctSubscriber T Err) (ev : Event T Err F).

(** A closed subscriber stays closed, and its destination hears nothing
    more, whatever arrives. *)
Lemma distinct_step_closed this ev :
  closed this = true ->
  closed (step this ev) = true /\ output (step this ev) = output this.
Proof.
  intros Hc. destruct ev; cbn [step];
    unfold FlushSubscriber_next, FlushSubscriber_error,
      FlushSubscriber_complete, next, error, complete;
    rewrite ?Hc; auto.
Qed.

Lemma distinct_run_closed (trace : list (Event T Err F)) this :
  closed this = true ->
  closed (run trace this) = true /\ output (run trace this) = output this.
Proof.
  revert this. induction trace as [|ev trace IH]; intros this Hc; [done|].
  destruct (distinct_step_closed this ev Hc) as [Hc' Hout].
  change (run (ev :: trace) this) with (run trace (step this ev)).
  destruct (IH _ Hc') as [? ->]. by split.
Qed.

(** A comparator that always returns: the loop finds an entry or not. *)
Lemma scan_returns (c : T -> T -> bool) (vals : list T) (value : T) :
  scan (fun x y => Returns (c x y)) vals value =
  if existsb (fun existing => c existing value) vals
  then Found (Err:=Err) else NotFound.
Proof.
  induction vals as [|x vals IH]; cbn; [done|]. by destruct (c x value).
Qed.

Lemma distinct_run_returns (c : T -> T -> bool) (vs : list T) this :
  closed this = false ->
  compare this = (fun x y => Returns (c x y)) ->
  nexts (output (run (F:=F) (SrcNext <$> vs) this)) =
  nexts (output this) ++ distinct_by_spec c (values this) vs.
Proof.
  revert this. induction vs as [|v vs IH]; intros this Hopen Hcmp.
  - cbn. by rewrite app_nil_r.
  - change (run (SrcNext <$> v :: vs) this)
      with (run (F:=F) (SrcNext <$> vs) (next v this)).
    pose proof (scan_returns c (values this) v) as Hscan.
    rewrite <- Hcmp in Hscan. cbn [distinct_by_spec].
    destruct (existsb _ (values this)).
    + rewrite (distinct_next_Found _ _ Hopen Hscan). by apply IH.
    + rewrite (distinct_next_NotFound _ _ Hopen Hscan).
      rewrite IH; [| |done].
      * unfold output at 1. cbn [destination Recorder.received values].
        rewrite nexts_app. by rewrite <- app_assoc.
      * revert Hopen. cbn. unfold Distinct_closed. cbn.
        by intros [-> _]%orb_false_iff.
Qed.
End DistinctTraces.

(** C2. A Distinct subscriber that is not closed forwards an incoming value
    exactly when [compare(existing, value)] is false for every value in its
    memory, and then appends it to the memory; otherwise the memory is kept
    and no value goes downstream. On a whole source, with a comparator that
    returns or with the default [===], the output is what the algorithm of
    the spec gives. Source 1,2,2,3,1 with the default comparator yields
    1,2,3, and source 1,2,3,4,5 compared modulo 3 yields 1,2,3. *)
Theorem C2_distinct_forwards_unseen_values :
  (forall (T Err : Type) (this : Distinct.DistinctSubscriber T Err) (value : T),
     closed this = false ->
     let memory_differs :=
       all_differ (Distinct.compare this) (Distinct.values this) value in
     (Distinct.output (next value this) = Distinct.output this ++ [Next value]
        <-> memory_differs)
     /\ (memory_differs ->
         Distinct.values (next value this) = Distinct.values this ++ [value])
     /\ (~ memory_differs ->
         Distinct.values (next value this) = Distinct.values this
         /\ nexts (Distinct.output (next value this)) =
            nexts (Distinct.output this)))
  /\ (forall (T Err F : Type) (strict_eq : T -> T -> bool)
        (compare : option (T -> T -> bool)) (flushes : bool) (source : list T),
       nexts (Distinct.output
                (Distinct.run (F:=F) (Distinct.SrcNext <$> source)
                   (Distinct.new_DistinctSubscriber (Err:=Err) strict_eq
                      Recorder.create
                      ((fun c x y => Returns (c x y)) <$> compare) flushes)))
       = distinct_by_spec (default strict_eq compare) [] source)
  /\ Distinct.output
       (Distinct.run (Examples.source [1; 2; 2; 3; 1]%Z)
          (Examples.fresh None false))
     = [Next 1; Next 2; Next 3]%Z
  /\ Distinct.output
       (Distinct.run (Examples.source [1; 2; 3; 4; 5]%Z)
          (Examples.fresh (Some Examples.mod3) false))
     = [Next 1; Next 2; Next 3]%Z.
Proof.
  split; [|split; [|split; reflexivity]].
  - intros T Err this value Hopen memory_differs. subst memory_differs.
    rewrite <- scan_NotFound.
    destruct (Distinct.scan _ _ value) as [| |e] eqn:Hscan.
    + rewrite (distinct_next_Found _ _ Hopen Hscan).
      split; [|split]; [|done|done].
      split; [|done]. intros H. symmetry in H. by apply app_singleton_neq in H.
    + rewrite (distinct_next_NotFound _ _ Hopen Hscan). cbn.
      split; [|split]; [done|done|]. by intros [].
    + rewrite (distinct_next_Caught _ _ _ Hopen Hscan).
      unfold Distinct.output.
      cbn [Distinct.destination Distinct.values Recorder.received].
      split; [|split]; [|done|].
      * split; [|done]. by intros [_ [=]]%app_inj_tail.
      * intros _. split; [done|].
        rewrite nexts_app. cbn. by rewrite app_nil_r.
  - intros T Err F strict_eq compare flushes source.
    rewrite (distinct_run_returns (default strict_eq compare)); [done|done|].
    by destruct compare.
Qed.

(** The claim at the memory 1,2,3 compared modulo 3, with 4 arriving. *)
Lemma C2_witness :
  closed (Examples.after_123 (Some Examples.mod3)) = false
  /\ (Distinct.output (next 4%Z (Examples.after_123 (Some Examples.mod3)))
      = Distinct.output (Examples.after_123 (Some Examples.mod3)) ++ [Next 4%Z]
      <-> all_differ Examples.mod3 [1; 2; 3]%Z 4%Z).
Proof.
  split; [reflexivity|].
  exact (proj1 (proj1 C2_distinct_forwards_unseen_values
                  Z nat (Examples.after_123 (Some Examples.mod3)) 4%Z
                  eq_refl)).
Defined.

Section DistinctTerminal.
Import Distinct.
Context {T Err : Type}.
Implicit Types (this : DistinctSubscriber T Err).

Lemma distinct_error_open this err :
  closed this = false ->
  error err this =
    mkDistinct
      (Recorder.mk true (output this ++ [Error err]))
      true (values this) (compare this)
      (Subscription_unsubscribe <$> flushSubscription this).
Proof.
  intros Hopen. pose proof (distinct_closed_dest _ Hopen) as Hd.
  unfold error at 1. rewrite Hopen. cbn.
  unfold Distinct_unsubscribe, with_destination; cbn.
  by rewrite (recorder_error_open _ _ Hd).
Qed.

Lemma distinct_complete_open this :
  closed this = false ->
  complete this =
    mkDistinct
      (Recorder.mk true (output this ++ [Complete]))
      true (values this) (compare this)
      (Subscription_unsubscribe <$> flushSubscription this).
Proof.
  intros Hopen. pose proof (distinct_closed_dest _ Hopen) as Hd.
  unfold complete at 1. rewrite Hopen. cbn.
  unfold Distinct_unsubscribe, with_destination; cbn.
  by rewrite (recorder_complete_open _ Hd).
Qed.
End DistinctTerminal.

(** C4. When the comparator throws during the scan for an incoming value
    (it returned false for the entries before the one it throws on), the
    destination is given the error, the Distinct subscriber is closed, and
    whatever arrives later adds nothing to what the destination was given. *)
Theorem C4_distinct_comparator_throws :
  forall (T Err F : Type) (this : Distinct.DistinctSubscriber T Err)
         (value : T) (err : Err) (before after : list T) (existing : T)
         (later : list (Distinct.Event T Err F)),
    closed this = false ->
    Distinct.values this = before ++ existing :: after ->
    all_differ (Distinct.compare this) before value ->
    Distinct.compare this existing value = Throws err ->
    Distinct.output (next value this) = Distinct.output this ++ [Error err]
    /\ closed (next value this) = true
    /\ Distinct.output (Distinct.run later (next value this))
       = Distinct.output this ++ [Error err].
Proof.
  intros T Err F this value err before after existing later
         Hopen Hvals Hall Hthrow.
  assert (Hscan : Distinct.scan (Distinct.compare this)
                    (Distinct.values this) value = Distinct.Caught err).
  { apply scan_Caught. by exists before, existing, after. }
  rewrite (distinct_next_Caught _ _ _ Hopen Hscan).
  set (this' := Distinct.mkDistinct _ _ _ _ _).
  assert (Hclosed : closed this' = true).
  { cbn. unfold Distinct.Distinct_closed. cbn. apply orb_true_r. }
  split; [done | split; [done|]].
  by destruct (distinct_run_closed later this' Hclosed) as [_ ->].
Qed.

(** The claim for the comparator that throws error 7 on value 3, after 1
    and 2 went through, with 4 and 5 still to come. *)
Lemma C4_witness :
  Distinct.output
    (Distinct.run (Examples.source [4; 5]%Z)
       (next 3%Z (Examples.after_12 (Some Examples.throws_on_3))))
  = [Next 1%Z; Next 2%Z; Error 7].
Proof.
  exact (proj2 (proj2
    (C4_distinct_comparator_throws Z nat Z
       (Examples.after_12 (Some Examples.throws_on_3)) 3%Z 7
       [] [2%Z] 1%Z (Examples.source [4; 5]%Z)
       eq_refl eq_refl (Forall_nil_2 _) eq_refl))).
Defined.

(** C8. A value from [flushes] empties the memory and leaves the
    destination and the open or closed state as they were, so the next
    value of an open subscriber is forwarded whatever was seen before;
    [flushes] completing changes nothing; [flushes] erroring gives the
    error to the destination and closes the Distinct subscriber. Source
    1,2,(flush),1 yields 1,2,1. *)
Theorem C8_distinct_flushes :
  (forall (T Err F : Type) (this : Distinct.DistinctSubscriber T Err) (x : F),
     let flushed := Distinct.FlushSubscriber_next x this in
     Distinct.values flushed = []
     /\ Distinct.destination flushed = Distinct.destination this
     /\ closed flushed = closed this
     /\ forall value : T,
          closed this = false ->
          Distinct.output (next value flushed)
          = Distinct.output this ++ [Next value])
  /\ (forall (T Err : Type) (this : Distinct.DistinctSubscriber T Err),
        Distinct.FlushSubscriber_complete this = this)
  /\ (forall (T Err : Type) (this : Distinct.DistinctSubscriber T Err)
        (err : Err),
        closed this = false ->
        Distinct.output (Distinct.FlushSubscriber_error err this)
        = Distinct.output this ++ [Error err]
        /\ closed (Distinct.FlushSubscriber_error err this) = true)
  /\ Distinct.output
       (Distinct.run
          [Distinct.SrcNext 1; Distinct.SrcNext 2; Distinct.FlushNext 0;
           Distinct.SrcNext 1]%Z
          (Examples.fresh None true))
     = [Next 1; Next 2; Next 1]%Z.
Proof.
  split; [|split; [|split]]; [| done | | reflexivity].
  - intros T Err F this x flushed. subst flushed.
    split; [done | split; [done | split; [done|]]].
    intros value Hopen.
    rewrite distinct_next_NotFound; done.
  - intros T Err this err Hopen. unfold Distinct.FlushSubscriber_error.
    rewrite (distinct_error_open _ _ Hopen). done.
Qed.

(** [flushes] errors with 9 after 1 and 2 went through. *)
Lemma C8_witness :
  Distinct.output
    (Distinct.FlushSubscriber_error 9 (Examples.after_12 None))
  = [Next 1%Z; Next 2%Z; Error 9]
  /\ closed (Distinct.FlushSubscriber_error 9 (Examples.after_12 None)) = true.
Proof.
  exact (proj1 (proj2 (proj2 C8_distinct_flushes))
           Z nat (Examples.after_12 None) 9 eq_refl).
Defined.

Section DistinctSubsequence.
Import Distinct.
Context {T Err F : Type}.
Implicit Types (this : DistinctSubscriber T Err) (ev : Event T Err F).

(** One event adds at most the value it carries, and only a source value. *)
Lemma distinct_step_nexts this ev :
  exists forwarded,
    nexts (output (step this ev)) = nexts (output this) ++ forwarded
    /\ forwarded `sublist_of` src_values [ev].
Proof.
  assert (Hsame : forall this',
    nexts (output this') = nexts (output this) ->
    exists forwarded,
      nexts (output this') = nexts (output this) ++ forwarded
      /\ forwarded `sublist_of` src_values [ev]).
  { intros this' ->. exists []. rewrite app_nil_r.
    split; [done | apply sublist_nil_l]. }
  assert (Hsilent : forall (n : Notification T Err) st,
    nexts [n] = [] ->
    nexts (Recorder.received (Recorder.mk st (output this ++ [n])))
    = nexts (output this)).
  { intros n st Hn. cbn [Recorder.received].
    by rewrite nexts_app, Hn, app_nil_r. }
  destruct (closed this) eqn:Hopen.
  { apply Hsame. by destruct (distinct_step_closed this ev Hopen) as [_ ->]. }
  destruct ev as [v|e| |x|e|]; cbn [step].
  - destruct (scan (compare this) (values this) v) as [| |e] eqn:Hscan.
    + rewrite (distinct_next_Found _ _ Hopen Hscan). by apply Hsame.
    + rewrite (distinct_next_NotFound _ _ Hopen Hscan).
      exists [v]. unfold output at 1. cbn [destination Recorder.received].
      by rewrite nexts_app.
    + rewrite (distinct_next_Caught _ _ _ Hopen Hscan).
      apply Hsame. by apply Hsilent.
  - rewrite (distinct_error_open _ _ Hopen). apply Hsame. by apply Hsilent.
  - rewrite (distinct_complete_open _ Hopen). apply Hsame. by apply Hsilent.
  - by apply Hsame.
  - unfold FlushSubscriber_error. rewrite (distinct_error_open _ _ Hopen).
    apply Hsame. by apply Hsilent.
  - by apply Hsame.
Qed.

Lemma distinct_run_nexts (trace : list (Event T Err F)) this :
  exists forwarded,
    nexts (output (run trace this)) = nexts (output this) ++ forwarded
    /\ forwarded `sublist_of` src_values trace.
Proof.
  revert this. induction trace as [|ev trace IH]; intros this.
  { exists []. by rewrite app_nil_r. }
  change (run (ev :: trace) this) with (run trace (step this ev)).
  destruct (IH (step this ev)) as (l2 & -> & Hl2).
  destruct (distinct_step_nexts this ev) as (l1 & -> & Hl1).
  exists (l1 ++ l2). rewrite <- app_assoc. split; [done|].
  replace (src_values (ev :: trace))
    with (src_values [ev] ++ src_values trace)
    by (symmetry; apply (omap_app _ [ev] trace)).
  by apply sublist_app.
Qed.
End DistinctSubsequence.

(** C10. A value emitted by [flushes] only clears the memory: the memory
    becomes empty and the destination, the flag, the comparator and the
    subscription to [flushes] are kept as they were. So it gives the
    destination nothing, and which value it is makes no difference. The
    values a Distinct subscriber forwards while a trace of source and flush
    events runs are a subsequence, in order, of the source values of the
    trace. So the output of a fresh subscriber is a subsequence of its
    source, and every value in it is a source value. *)
Theorem C10_distinct_output_is_source_subsequence :
  forall (T Err F : Type) (this : Distinct.DistinctSubscriber T Err)
         (trace : list (Distinct.Event T Err F)),
    (forall x : F,
       Distinct.step this (Distinct.FlushNext x)
       = Distinct.mkDistinct
           (Distinct.destination this) (Distinct.selfClosed this) []
           (Distinct.compare this) (Distinct.flushSubscription this))
    /\ (forall x : F,
          Distinct.values (Distinct.step this (Distinct.FlushNext x)) = [])
    /\ (forall x y : F,
       Distinct.output (Distinct.step this (Distinct.FlushNext x))
       = Distinct.output this
       /\ Distinct.step this (Distinct.FlushNext x)
          = Distinct.step this (Distinct.FlushNext y))
    /\ (exists forwarded,
          nexts (Distinct.output (Distinct.run trace this))
          = nexts (Distinct.output this) ++ forwarded
          /\ forwarded `sublist_of` Distinct.src_values trace)
    /\ (forall strict_eq compare flushes,
          let fresh :=
            Distinct.new_DistinctSubscriber strict_eq Recorder.create
              compare flushes in
          nexts (Distinct.output (Distinct.run trace fresh))
            `sublist_of` Distinct.src_values trace
          /\ forall value,
               Next value ∈ Distinct.output (Distinct.run trace fresh) ->
               value ∈ Distinct.src_values trace).
Proof.
  intros T Err F this trace.
  split; [done | split; [done | split; [done | split]]].
  - apply distinct_run_nexts.
  - intros strict_eq compare flushes fresh.
    destruct (distinct_run_nexts trace fresh) as (l & Hl & Hsub).
    cbn in Hl. rewrite Hl. split; [done|].
    intros value Hin. eapply elem_of_sublist; [|exact Hsub].
    rewrite <- Hl. unfold nexts. apply list_elem_of_omap.
    by exists (Next value).
Qed.

(** ** IsEmpty *)

Section IsEmptyFacts.
Import IsEmpty.
Context {T Err : Type}.
Implicit Types (this : IsEmptySubscriber Err) (ev : Event T Err).

Lemma isEmpty_closed_dest this :
  IsEmpty_closed this = false ->
  closed (destination this) = false.
Proof.
  unfold IsEmpty_closed. by intros [_ H]%orb_false_iff.
Qed.

Lemma isEmpty_notifyComplete_open this (isEmpty : bool) :
  closed (destination this) = false ->
  notifyComplete isEmpty this =
    mkIsEmpty
      (Recorder.mk true (output this ++ [Next isEmpty; Complete]))
      (selfClosed this).
Proof.
  intros Hd. unfold notifyComplete, with_destination.
  rewrite (recorder_next_open _ _ Hd).
  rewrite recorder_complete_open by done. cbn.
  by rewrite <- app_assoc.
Qed.

Lemma isEmpty_next_open this (value : T) :
  IsEmpty_closed this = false ->
  next value this =
    mkIsEmpty
      (Recorder.mk true (output this ++ [Next false; Complete]))
      (selfClosed this).
Proof.
  intros Hopen. unfold next. cbn [closed hooks]. rewrite Hopen. cbn.
  apply isEmpty_notifyComplete_open. by apply isEmpty_closed_dest.
Qed.

Lemma isEmpty_complete_open this :
  IsEmpty_closed this = false ->
  step this (SrcComplete : Event T Err) =
    mkIsEmpty
      (Recorder.mk true (output this ++ [Next true; Complete])) true.
Proof.
  intros Hopen. cbn [step]. unfold complete. cbn [closed hooks].
  rewrite Hopen. cbn.
  rewrite isEmpty_notifyComplete_open by (by apply isEmpty_closed_dest).
  done.
Qed.

Lemma isEmpty_error_open this (err : Err) :
  IsEmpty_closed this = false ->
  step this (SrcError err : Event T Err) =
    mkIsEmpty (Recorder.mk true (output this ++ [Error err])) true.
Proof.
  intros Hopen. cbn [step]. unfold error at 1. cbn [closed hooks].
  rewrite Hopen. cbn.
  unfold IsEmpty_unsubscribe, with_destination. cbn.
  by rewrite recorder_error_open by (by apply isEmpty_closed_dest).
Qed.

(** Once closed, nothing the source does changes anything. *)
Lemma isEmpty_step_closed this ev :
  IsEmpty_closed this = true -> step this ev = this.
Proof.
  intros Hc. destruct ev; cbn [step]; unfold next, error, complete;
    cbn [closed hooks]; by rewrite Hc.
Qed.

Lemma isEmpty_run_closed (trace : list (Event T Err)) this :
  IsEmpty_closed this = true -> run trace this = this.
Proof.
  intros Hc. induction trace as [|ev trace IH]; [done|].
  change (run (ev :: trace) this) with (run trace (step this ev)).
  by rewrite isEmpty_step_closed.
Qed.
End IsEmptyFacts.

(** C5. On the first value an open IsEmpty subscriber gives its destination
    [false] and then [complete], at once and with no completion of the
    source needed; the subscriber, which is also the subscription to the
    source, is closed from then on, and nothing the source does later
    changes it or reaches the destination. A source whose first value is 42
    yields [false] and a completion. *)
Theorem C5_isEmpty_first_value :
  forall (T Err : Type) (this : IsEmpty.IsEmptySubscriber Err) (value : T)
         (later : list (IsEmpty.Event T Err)),
    IsEmpty.IsEmpty_closed this = false ->
    IsEmpty.output (next value this)
    = IsEmpty.output this ++ [Next false; Complete]
    /\ IsEmpty.IsEmpty_closed (next value this) = true
    /\ closed (IsEmpty.destination (next value this)) = true
    /\ IsEmpty.run later (next value this) = next value this
    /\ IsEmpty.output
         (IsEmpty.run (IsEmpty.SrcNext 42%Z :: IsEmpty.SrcNext 7%Z :: [])
            (IsEmpty.new_IsEmptySubscriber (Err:=Err) Recorder.create))
       = [Next false; Complete].
Proof.
  intros T Err this value later Hopen.
  rewrite (isEmpty_next_open _ _ Hopen).
  set (this' := IsEmpty.mkIsEmpty _ _).
  assert (Hc : IsEmpty.IsEmpty_closed this' = true).
  { unfold IsEmpty.IsEmpty_closed. cbn. apply orb_true_r. }
  repeat split; try done.
  by apply isEmpty_run_closed.
Qed.

(** A fresh subscriber, the value 42, and a source that goes on. *)
Lemma C5_witness :
  IsEmpty.output
    (IsEmpty.run [IsEmpty.SrcNext 1%Z; IsEmpty.SrcComplete]
       (next 42%Z (IsEmpty.new_IsEmptySubscriber (Err:=nat) Recorder.create)))
  = [Next false; Complete].
Proof.
  rewrite (proj1 (proj2 (proj2 (proj2
    (C5_isEmpty_first_value Z nat
       (IsEmpty.new_IsEmptySubscriber Recorder.create) 42%Z
       [IsEmpty.SrcNext 1%Z; IsEmpty.SrcComplete] eq_refl))))).
  reflexivity.
Defined.

(** C9. Whatever the source does, an open IsEmpty subscriber adds to what
    its destination has received exactly what the first event of the source
    calls for: [false] and a completion when it is a value, whatever the
    value; [true] and a completion when it is the completion; the error
    alone, and no boolean, when it is an error; nothing while the source is
    silent. *)
Theorem C9_isEmpty_one_boolean :
  forall (T Err : Type) (this : IsEmpty.IsEmptySubscriber Err)
         (trace : list (IsEmpty.Event T Err)),
    IsEmpty.IsEmpty_closed this = false ->
    IsEmpty.output (IsEmpty.run trace this)
    = IsEmpty.output this ++ isEmpty_answer trace.
Proof.
  intros T Err this [|ev trace] Hopen.
  { cbn. by rewrite app_nil_r. }
  change (IsEmpty.run (ev :: trace) this)
    with (IsEmpty.run trace (IsEmpty.step this ev)).
  assert (Hc : forall d b,
    IsEmpty.IsEmpty_closed
      (IsEmpty.mkIsEmpty (Err:=Err) (Recorder.mk true d) b) = true).
  { intros d b. unfold IsEmpty.IsEmpty_closed. cbn. apply orb_true_r. }
  destruct ev as [v|e|]; cbn [isEmpty_answer].
  - cbn [IsEmpty.step]. rewrite (isEmpty_next_open _ _ Hopen).
    by rewrite isEmpty_run_closed.
  - rewrite (isEmpty_error_open (T:=T) _ _ Hopen).
    by rewrite isEmpty_run_closed.
  - rewrite (isEmpty_complete_open (T:=T) _ Hopen).
    by rewrite isEmpty_run_closed.
Qed.

(** An empty source that completes. *)
Lemma C9_witness :
  IsEmpty.output
    (IsEmpty.run [IsEmpty.SrcComplete (T:=Z)]
       (IsEmpty.new_IsEmptySubscriber (Err:=nat) Recorder.create))
  = [Next true; Complete].
Proof.
  exact (C9_isEmpty_one_boolean Z nat
           (IsEmpty.new_IsEmptySubscriber Recorder.create)
           [IsEmpty.SrcComplete] eq_refl).
Defined.

(** ** WindowWhen *)

(** Runs the field updates of a method body on a record whose fields are
    known, innermost first. *)
Ltac window_eval :=
  cbv beta iota zeta delta
    [WindowWhen.openWindow WindowWhen.new_WindowSubscriber
     WindowWhen.call_closingSelector
     WindowWhen.unsubscribeClosingNotification WindowWhen.on_window
     WindowWhen.subscribeToResult
     WindowWhen.with_window WindowWhen.with_subjects
     WindowWhen.with_destination WindowWhen.with_closingNotification
     WindowWhen.with_selectorCalls WindowWhen.Window_next
     WindowWhen.Window_error WindowWhen.Window_complete
     WindowWhen.Window_unsubscribe WindowWhen.Window_closed
     WindowWhen.notifier_active
     WindowWhen.destination WindowWhen.selfClosed WindowWhen.subjects
     WindowWhen.window WindowWhen.closingNotification
     WindowWhen.closingSelector WindowWhen.selectorCalls].

Section WindowFacts.
Import WindowWhen.
Context {T R Err Obs : Type}.
Implicit Types (this : WindowSubscriber T Err Obs) (ev : Event T R Err).
Implicit Types (subject current : Recorder.t T Err).

Lemma alter_last (f : Recorder.t T Err -> Recorder.t T Err)
    (finished : list (Recorder.t T Err)) current :
  alter f (length finished) (finished ++ [current]) = finished ++ [f current].
Proof.
  rewrite <- (Nat.add_0_r (length finished)) at 1. by rewrite alter_app_r.
Qed.

(** Closing the current window and opening the next one, when the
    selector returns. *)
Lemma openWindow_returns this innerSub finished current notifier :
  subjects this = finished ++ [current] ->
  window this = Some (length finished) ->
  Recorder.stopped current = false ->
  Recorder.stopped (destination this) = false ->
  closingSelector this (selectorCalls this) = Returns notifier ->
  openWindow innerSub this =
    mkWindow
      (Recorder.mk false
         (Recorder.received (destination this)
            ++ [Next (Datatypes.S (length finished))]))
      (selfClosed this)
      ((finished ++ [Recorder.mk true (Recorder.received current ++ [Complete])])
         ++ [Recorder.create])
      (Some (Datatypes.S (length finished)))
      (Some {| isUnsubscribed := false |})
      (closingSelector this)
      (Datatypes.S (selectorCalls this)).
Proof.
  destruct this as [[dst dlog] sc subs w cn sel calls].
  cbn [subjects window destination closingSelector selectorCalls selfClosed
       Recorder.stopped Recorder.received].
  intros -> -> Hcur -> Hsel.
  destruct innerSub; window_eval;
    rewrite Hsel, alter_last, (recorder_complete_open current Hcur);
    rewrite !length_app; cbn [length]; rewrite Nat.add_1_r; reflexivity.
Qed.

(** The first window, when the selector returns. *)
Lemma new_WindowSubscriber_returns (dest : Recorder.t WindowRef Err)
    (selector : ClosingSelector Err Obs) notifier :
  Recorder.stopped dest = false ->
  selector 0 = Returns notifier ->
  new_WindowSubscriber (T:=T) dest selector =
    mkWindow
      (Recorder.mk false (Recorder.received dest ++ [Next 0]))
      false [Recorder.create] (Some 0)
      (Some {| isUnsubscribed := false |}) selector 1.
Proof.
  destruct dest as [dst dlog]. cbn [Recorder.stopped]. intros -> Hsel.
  window_eval. by rewrite Hsel.
Qed.

(** The first window, when the selector throws. *)
Lemma new_WindowSubscriber_throws (dest : Recorder.t WindowRef Err)
    (selector : ClosingSelector Err Obs) err :
  Recorder.stopped dest = false ->
  selector 0 = Throws err ->
  new_WindowSubscriber (T:=T) dest selector =
    mkWindow
      (Recorder.mk true (Recorder.received dest ++ [Next 0; Error err]))
      false [Recorder.mk true [Error err]] (Some 0) None selector 1.
Proof.
  destruct dest as [dst dlog]. cbn [Recorder.stopped]. intros -> Hsel.
  window_eval. rewrite Hsel. cbn. unfold Recorder.stop, Recorder.record. cbn.
  by rewrite <- app_assoc.
Qed.

(** A source value goes to the window [this.window] refers to. *)
Lemma window_next_open this value finished current :
  Window_closed this = false ->
  subjects this = finished ++ [current] ->
  window this = Some (length finished) ->
  Recorder.stopped current = false ->
  next value this =
    with_subjects
      (finished ++ [Recorder.mk false (Recorder.received current ++ [Next value])])
      this.
Proof.
  intros Hopen Hsubs Hw Hcur. unfold next. cbn [closed hooks].
  rewrite Hopen. cbn [_next hooks]. unfold Window_next, on_window.
  rewrite Hw, Hsubs, alter_last.
  by rewrite (recorder_next_open current value Hcur).
Qed.
End WindowFacts.

Section WindowTraces.
Import WindowWhen.
Context {T R Err Obs : Type}.
Implicit Types (this : WindowSubscriber T Err Obs) (ev : Event T R Err).

Lemma join_contents_snoc
    (finished : list (Recorder.t T Err)) (current : Recorder.t T Err) :
  mjoin (contents <$> (finished ++ [current]))
  = mjoin (contents <$> finished) ++ contents current.
Proof.
  rewrite fmap_snoc, join_app. cbn [mjoin list_join]. by rewrite app_nil_r.
Qed.

Lemma contents_record (st : bool) (log : list (Notification T Err))
    (n : Notification T Err) :
  contents (Recorder.mk st (log ++ [n])) = nexts log ++ nexts [n].
Proof. unfold contents. cbn [Recorder.received]. apply nexts_app. Qed.

Lemma window_open_not_closed this :
  window_open this -> Window_closed this = false.
Proof.
  intros [Hs Hd _ _]. unfold Window_closed. cbn. by rewrite Hs, Hd.
Qed.

(** One event of a live source or of a notifier keeps the subscriber in
    the state "window-open". *)
Lemma window_open_step this ev :
  window_open this ->
  never_throws (closingSelector this) ->
  windowing_event ev = true ->
  window_open (step this ev)
  /\ closingSelector (step this ev) = closingSelector this
  /\ selectorCalls (step this ev) = selectorCalls this + opens ev
  /\ emitted_windows (step this ev) =
     emitted_windows this ++ seq (length (subjects this)) (opens ev)
  /\ length (subjects (step this ev)) = length (subjects this) + opens ev
  /\ all_contents (step this ev) = all_contents this ++ src_values [ev].
Proof.
  intros Hopen Hsel Hev.
  pose proof (window_open_not_closed _ Hopen) as Hnc.
  destruct Hopen as [Hs Hd Hn (finished & current & Hsubs & Hw & Hcur & Hfin)].
  assert (Hcut : forall innerSub,
    let this' := openWindow innerSub this in
    window_open this'
    /\ closingSelector this' = closingSelector this
    /\ selectorCalls this' = selectorCalls this + 1
    /\ emitted_windows this' =
       emitted_windows this ++ seq (length (subjects this)) 1
    /\ length (subjects this') = length (subjects this) + 1
    /\ all_contents this' = all_contents this ++ []).
  { intros innerSub. destruct (Hsel (selectorCalls this)) as [notifier Hret].
    cbn zeta.
    rewrite (openWindow_returns _ innerSub _ _ _ Hsubs Hw Hcur Hd Hret).
    split; [|split; [|split; [|split; [|split]]]].
    - split; cbn; [done..|].
      exists (finished ++
                [Recorder.mk true (Recorder.received current ++ [Complete])]),
             Recorder.create.
      split; [done|]. rewrite length_app, Nat.add_1_r.
      split; [done | split; [done|]].
      apply Forall_app. split; [done | by constructor].
    - done.
    - cbn. lia.
    - unfold emitted_windows. cbn [destination Recorder.received].
      rewrite nexts_app, Hsubs, length_app, Nat.add_1_r. done.
    - cbn [subjects]. rewrite Hsubs, !length_app. cbn. lia.
    - rewrite app_nil_r. unfold all_contents. cbn [subjects].
      rewrite Hsubs, !join_contents_snoc, contents_record.
      change (nexts [Complete]) with (@nil T).
      change (contents Recorder.create) with (@nil T).
      by rewrite !app_nil_r. }
  destruct ev as [v|e| |x|e|]; try discriminate Hev; cbn [step opens
    is_notifier_value is_notifier_completion orb].
  - rewrite (window_next_open _ v _ _ Hnc Hsubs Hw Hcur).
    split; [|split; [|split; [|split; [|split]]]].
    + split; cbn; [done..|].
      eexists finished, _. by repeat split.
    + done.
    + cbn. lia.
    + cbn. by rewrite app_nil_r.
    + cbn [with_subjects subjects]. rewrite Hsubs, !length_app. cbn. lia.
    + unfold all_contents. cbn [with_subjects subjects].
      rewrite Hsubs, !join_contents_snoc, contents_record.
      change (nexts [Next v]) with [v].
      change (src_values [SrcNext v]) with [v].
      by rewrite app_assoc.
  - unfold Inner_next, notifyNext, notifier_active. rewrite Hn. cbn [negb
      isUnsubscribed]. apply Hcut.
  - unfold Inner_complete, notifyComplete, notifier_active. rewrite Hn.
    cbn [negb isUnsubscribed]. apply Hcut.
Qed.

Lemma count_events_cons ev (trace : list (Event T R Err)) :
  fires (ev :: trace) + notifier_completions (ev :: trace)
  = opens ev + (fires trace + notifier_completions trace).
Proof.
  unfold fires, notifier_completions, opens. destruct ev; cbn; lia.
Qed.

Lemma window_open_run (trace : list (Event T R Err)) this :
  window_open this ->
  never_throws (closingSelector this) ->
  Forall (fun ev => windowing_event ev = true) trace ->
  let cuts := fires trace + notifier_completions trace in
  window_open (run trace this)
  /\ selectorCalls (run trace this) = selectorCalls this + cuts
  /\ emitted_windows (run trace this) =
     emitted_windows this ++ seq (length (subjects this)) cuts
  /\ length (subjects (run trace this)) = length (subjects this) + cuts
  /\ all_contents (run trace this) = all_contents this ++ src_values trace.
Proof.
  revert this. induction trace as [|ev trace IH]; intros this Hopen Hsel Hall.
  { cbn. rewrite !app_nil_r, !Nat.add_0_r. done. }
  apply Forall_cons_1 in Hall as [Hev Hall].
  destruct (window_open_step this ev Hopen Hsel Hev)
    as (Hopen' & Hsel' & Hcalls & Hem & Hlen & Hcont).
  change (run (ev :: trace) this) with (run trace (step this ev)).
  cbn zeta. rewrite count_events_cons.
  destruct (IH (step this ev) Hopen') as (H1 & H2 & H3 & H4 & H5);
    [by rewrite Hsel' | done |].
  split; [done|]. rewrite H2, H3, H4, H5, Hcalls, Hem, Hlen, Hcont.
  split; [lia|]. split; [|split; [lia|]].
  - by rewrite <- app_assoc,
      (seq_app (opens ev) (fires trace + notifier_completions trace)).
  - rewrite <- app_assoc. apply (f_equal (app (all_contents this))).
    symmetry. apply (omap_app _ [ev] trace).
Qed.

(** Looking the windows up in creation order gives them all. *)
Lemma omap_lookup_seq {A B} (f : A -> B) (before l : list A) :
  omap (fun w => f <$> (before ++ l) !! w) (seq (length before) (length l))
  = f <$> l.
Proof.
  revert before. induction l as [|x l IH]; intros before; [done|].
  cbn [length seq omap list_omap]. cbn.
  rewrite list_lookup_middle by done. cbn. f_equal.
  specialize (IH (before ++ [x])).
  rewrite length_app, Nat.add_1_r, <- app_assoc in IH. exact IH.
Qed.

Lemma concatenated_all this :
  emitted_windows this = seq 0 (length (subjects this)) ->
  concatenated this = all_contents this.
Proof.
  unfold concatenated, all_contents. intros ->.
  apply (f_equal mjoin).
  exact (omap_lookup_seq contents [] (subjects this)).
Qed.
End WindowTraces.

Section WindowOpen.
Import WindowWhen.
Context {T R Err Obs : Type}.
Implicit Types (this : WindowSubscriber T Err Obs) (ev : Event T R Err).

Lemma filter_none {A} (f : A -> bool) (l : list A) :
  Forall (fun x => f x = false) l -> List.filter f l = [].
Proof.
  induction 1 as [|x l Hx _ IH]; cbn; [done|]. by rewrite Hx.
Qed.

(** In the state "window-open" exactly one window is open: the one
    [this.window] refers to. *)
Lemma window_open_one this :
  window_open this ->
  exists w, window this = Some w /\ open_windows this = [w].
Proof.
  intros [_ _ _ (finished & current & Hsubs & Hw & Hcur & Hfin)].
  exists (length finished). split; [done|].
  unfold open_windows. rewrite Hsubs, length_app. cbn [length].
  rewrite seq_app, List.filter_app. cbn [seq List.filter].
  rewrite filter_none.
  - unfold is_open. rewrite Hsubs, list_lookup_middle by done.
    by rewrite Hcur.
  - apply List.Forall_forall. intros w [_ Hlt]%in_seq.
    unfold is_open. rewrite Hsubs, lookup_app_l by lia.
    destruct (lookup_lt_is_Some_2 finished w) as [subject Hsubject]; [lia|].
    rewrite Hsubject.
    by rewrite (Forall_lookup_1 _ _ _ _ Hfin Hsubject).
Qed.

Lemma window_open_next this value w :
  window_open this ->
  window this = Some w ->
  next value this =
    with_subjects (alter (Recorder.record (Next value)) w (subjects this))
      this.
Proof.
  intros Hopen Hw'. pose proof (window_open_not_closed _ Hopen) as Hnc.
  destruct Hopen as [_ _ _ (finished & current & Hsubs & Hw & Hcur & _)].
  rewrite (window_next_open _ value _ _ Hnc Hsubs Hw Hcur).
  assert (w = length finished) as -> by congruence.
  rewrite Hsubs, alter_last. unfold Recorder.record. by rewrite Hcur.
Qed.

Lemma window_open_fresh (selector : ClosingSelector Err Obs) :
  never_throws selector ->
  window_open (new_WindowSubscriber (T:=T) Recorder.create selector).
Proof.
  intros Hsel. destruct (Hsel 0) as [notifier Hret].
  rewrite (new_WindowSubscriber_returns Recorder.create _ _ eq_refl Hret).
  split; cbn; [done..|].
  exists [], Recorder.create. by repeat split.
Qed.

Lemma open_windows_none this :
  Forall (fun subject => Recorder.stopped subject = true) (subjects this) ->
  open_windows this = [].
Proof.
  intros Hall. unfold open_windows. apply filter_none.
  apply List.Forall_forall. intros w [_ Hlt]%in_seq.
  unfold is_open.
  destruct (lookup_lt_is_Some_2 (subjects this) w) as [subject Hsubject];
    [lia|].
  unfold WindowRef. rewrite Hsubject.
  by rewrite (Forall_lookup_1 _ _ _ _ Hall Hsubject).
Qed.

(** The source of a subscriber in the state "window-open" completes. *)
Lemma window_complete_open this finished current :
  window_open this ->
  subjects this = finished ++ [current] ->
  complete this =
    mkWindow
      (Recorder.mk true (Recorder.received (destination this) ++ [Complete]))
      true
      (finished ++ [Recorder.mk true (Recorder.received current ++ [Complete])])
      (window this)
      (Some {| isUnsubscribed := true |})
      (closingSelector this) (selectorCalls this).
Proof.
  intros [Hs Hd Hn (finished' & current' & Hsubs' & Hw & Hcur & _)] Hsubs.
  rewrite Hsubs in Hsubs'. apply app_inj_tail in Hsubs' as [<- <-].
  destruct this as [[dst dlog] sc subs w cn sel calls].
  destruct current as [cst clog].
  cbn [destination selfClosed subjects window closingNotification
       closingSelector selectorCalls Recorder.stopped Recorder.received] in *.
  subst. unfold complete at 1.
  cbn [closed unsubscribe _complete hooks]. window_eval. cbn [orb].
  by rewrite alter_last.
Qed.

(** Nothing changes a subscriber that is closed and has no notifier. *)
Lemma window_step_halted this ev :
  Window_closed this = true ->
  notifier_active this = false ->
  step this ev = this.
Proof.
  intros Hc Hn. destruct ev; cbn [step];
    unfold next, error, complete, Inner_next, Inner_error, Inner_complete;
    cbn [closed hooks]; by rewrite ?Hc, ?Hn.
Qed.

Lemma window_run_halted (trace : list (Event T R Err)) this :
  Window_closed this = true ->
  notifier_active this = false ->
  run trace this = this.
Proof.
  intros Hc Hn. induction trace as [|ev trace IH]; [done|].
  change (run (ev :: trace) this) with (run trace (step this ev)).
  by rewrite window_step_halted.
Qed.
End WindowOpen.

(** C1, as amended. While the source is alive, the closing selector returns
    and no notifier fails, the outer stream has emitted one window and one
    more for each value and for each completion a closing notifier
    delivered, numbered in order; exactly one window is open, the one
    [this.window] refers to, and a source value changes that window alone,
    by being appended to it; and the contents of the emitted windows, one
    after the other, are the source values so far. When the source then
    completes, the same windows have been emitted, none is open any more,
    and their contents are unchanged. *)
Theorem C1_windowWhen_partitions_the_source :
  forall (T R Err Obs : Type) (selector : WindowWhen.ClosingSelector Err Obs)
         (trace : list (WindowWhen.Event T R Err)),
    never_throws selector ->
    Forall (fun ev => windowing_event ev = true) trace ->
    let this :=
      WindowWhen.run trace
        (WindowWhen.new_WindowSubscriber Recorder.create selector) in
    let cuts := WindowWhen.fires trace + WindowWhen.notifier_completions trace in
    WindowWhen.emitted_windows this = seq 0 (cuts + 1)
    /\ length (WindowWhen.emitted_windows this) = cuts + 1
    /\ (exists w,
          WindowWhen.window this = Some w
          /\ open_windows this = [w]
          /\ forall value : T,
               next value this =
               WindowWhen.with_subjects
                 (alter (Recorder.record (Next value)) w
                    (WindowWhen.subjects this))
                 this)
    /\ WindowWhen.concatenated this = WindowWhen.src_values trace
    /\ (let ended := WindowWhen.step this (WindowWhen.SrcComplete (R:=R)) in
        WindowWhen.emitted_windows ended = seq 0 (cuts + 1)
        /\ open_windows ended = []
        /\ WindowWhen.concatenated ended = WindowWhen.src_values trace).
Proof.
  intros T R Err Obs selector trace Hsel Hall this cuts.
  pose proof (window_open_fresh (T:=T) selector Hsel) as Hfresh.
  destruct (Hsel 0) as [notifier Hret].
  destruct (window_open_run trace _ Hfresh) as (Hopen & _ & Hem & Hlen & Hcont);
    [| done |].
  { by rewrite (new_WindowSubscriber_returns Recorder.create _ _ eq_refl Hret). }
  fold this in Hopen, Hem, Hlen, Hcont. fold cuts in Hem, Hlen.
  rewrite (new_WindowSubscriber_returns Recorder.create _ _ eq_refl Hret) in Hem, Hlen, Hcont.
  cbn in Hem, Hlen, Hcont.
  assert (Hwindows : WindowWhen.emitted_windows this = seq 0 (cuts + 1)).
  { rewrite Hem. by rewrite Nat.add_comm. }
  assert (Hsize : length (WindowWhen.subjects this) = cuts + 1) by lia.
  split; [done|]. split; [by rewrite Hwindows, length_seq|].
  split; [|split].
  - destruct (window_open_one this Hopen) as (w & Hw & Hone).
    exists w. split; [done | split; [done|]].
    intros value. by apply window_open_next.
  - rewrite concatenated_all; [done|]. by rewrite Hwindows, Hsize.
  - destruct (window_open_subjects _ Hopen)
      as (finished & current & Hsubs & _ & _ & Hfin).
    cbn [WindowWhen.step]. rewrite (window_complete_open _ _ _ Hopen Hsubs).
    set (ended := WindowWhen.mkWindow _ _ _ _ _ _ _).
    assert (Hended : WindowWhen.emitted_windows ended = seq 0 (cuts + 1)).
    { unfold WindowWhen.emitted_windows, ended.
      cbn [WindowWhen.destination Recorder.received].
      rewrite nexts_app. change (nexts [Complete]) with (@nil nat).
      by rewrite app_nil_r. }
    split; [done | split].
    + apply open_windows_none. unfold ended. cbn [WindowWhen.subjects].
      apply Forall_app. split; [done | by constructor].
    + rewrite concatenated_all.
      * rewrite <- Hcont. unfold all_contents, ended.
        cbn [WindowWhen.subjects].
        rewrite Hsubs, !join_contents_snoc, contents_record.
        change (nexts [Complete]) with (@nil T). by rewrite app_nil_r.
      * rewrite Hended, <- Hsize, Hsubs. unfold ended.
        cbn [WindowWhen.subjects]. by rewrite !length_app.
Qed.

(** The amended claim on a source 1,2,3,4 cut by a notifier value after 2
    and by a notifier completion after 3. *)
Lemma C1_witness :
  WindowWhen.emitted_windows
    (WindowWhen.run WindowExamples.mixed
       (WindowExamples.fresh WindowExamples.always_returns))
  = [0; 1; 2]
  /\ WindowWhen.concatenated
       (WindowWhen.run WindowExamples.mixed
          (WindowExamples.fresh WindowExamples.always_returns))
     = [1; 2; 3; 4]%Z.
Proof.
  pose proof (C1_windowWhen_partitions_the_source Z Z nat unit
                WindowExamples.always_returns WindowExamples.mixed
                (fun n => ex_intro _ () eq_refl)
                ltac:(repeat constructor)) as (H1 & _ & _ & H2 & _).
  split; [exact H1 | exact H2].
Defined.

(** C1 as stated fails: a closing notifier that completes without a value
    has fired zero times, and the outer stream has emitted two windows. *)
Lemma C1_counterexample :
  WindowWhen.fires WindowExamples.completes_silently = 0
  /\ WindowWhen.emitted_windows
       (WindowWhen.run WindowExamples.completes_silently
          (WindowExamples.fresh WindowExamples.always_returns))
     = [0; 1]
  /\ length
       (WindowWhen.emitted_windows
          (WindowWhen.run WindowExamples.completes_silently
             (WindowExamples.fresh WindowExamples.always_returns)))
     <> WindowWhen.fires WindowExamples.completes_silently + 1.
Proof.
  split; [reflexivity | split; [reflexivity | discriminate]].
Qed.

(** C3. When the closing selector throws at the first open, the outer
    destination is given the first window and then the error, the first
    window is given the error and nothing else, and from then on no event,
    of the source or of a notifier, changes anything: no further window is
    created or emitted and the selector is not called again. *)
Theorem C3_windowWhen_selector_throws_at_first_open :
  forall (T R Err Obs : Type) (dest : Recorder.t WindowWhen.WindowRef Err)
         (selector : WindowWhen.ClosingSelector Err Obs) (err : Err)
         (later : list (WindowWhen.Event T R Err)),
    Recorder.stopped dest = false ->
    selector 0 = Throws err ->
    let this := WindowWhen.new_WindowSubscriber (T:=T) dest selector in
    Recorder.received (WindowWhen.destination this)
    = Recorder.received dest ++ [Next 0; Error err]
    /\ WindowWhen.subjects this = [Recorder.mk true [Error err]]
    /\ WindowWhen.window this = Some 0
    /\ WindowWhen.run later this = this
    /\ WindowWhen.emitted_windows (WindowWhen.run later this)
       = nexts (Recorder.received dest) ++ [0]
    /\ length (WindowWhen.subjects (WindowWhen.run later this)) = 1
    /\ WindowWhen.selectorCalls (WindowWhen.run later this) = 1.
Proof.
  intros T R Err Obs dest selector err later Hdest Hthrow this.
  assert (Hhalt : WindowWhen.run later this = this).
  { apply window_run_halted; subst this;
      by rewrite (new_WindowSubscriber_throws _ _ _ Hdest Hthrow). }
  rewrite Hhalt. subst this.
  rewrite (new_WindowSubscriber_throws _ _ _ Hdest Hthrow).
  unfold WindowWhen.emitted_windows.
  cbn [WindowWhen.destination WindowWhen.subjects WindowWhen.window
       WindowWhen.selectorCalls Recorder.received length].
  rewrite nexts_app. by repeat split.
Qed.

(** A selector that throws error 5, a fresh destination, and a source and a
    notifier that go on. *)
Lemma C3_witness :
  WindowWhen.run WindowExamples.mixed
    (WindowExamples.fresh WindowExamples.always_throws)
  = WindowExamples.fresh WindowExamples.always_throws
  /\ WindowWhen.subjects (WindowExamples.fresh WindowExamples.always_throws)
     = [Recorder.mk true [Error 5]].
Proof.
  pose proof (C3_windowWhen_selector_throws_at_first_open Z Z nat unit
                Recorder.create WindowExamples.always_throws 5
                WindowExamples.mixed eq_refl eq_refl)
    as (_ & H2 & _ & H4 & _).
  split; [exact H4 | exact H2].
Defined.

Section WindowTerminal.
Import WindowWhen.
Context {T R Err Obs : Type}.
Implicit Types (this : WindowSubscriber T Err Obs).

(** What the two terminal hooks have in common: the notification goes to
    the current window, then to the destination, and the closing-notifier
    subscription is unsubscribed. *)
Lemma window_terminal_open this w current
    (n : Notification T Err) (n' : Notification WindowRef Err)
    (m : Recorder.t T Err -> Recorder.t T Err)
    (m' : Recorder.t WindowRef Err -> Recorder.t WindowRef Err) :
  Window_closed this = false ->
  window this = Some w ->
  subjects this !! w = Some current ->
  Recorder.stopped current = false ->
  m current = Recorder.mk true (Recorder.received current ++ [n]) ->
  m' (destination this)
    = Recorder.mk true (Recorder.received (destination this) ++ [n']) ->
  let this' :=
    Window_unsubscribe
      (unsubscribeClosingNotification
         (with_destination (m' (destination (on_window m this)))
            (on_window m this))) in
  subjects this' !! w
    = Some (Recorder.mk true (Recorder.received current ++ [n]))
  /\ (forall w', w' <> w -> subjects this' !! w' = subjects this !! w')
  /\ destination this'
     = Recorder.mk true (Recorder.received (destination this) ++ [n'])
  /\ notifier_active this' = false
  /\ (forall sub, closingNotification this = Some sub ->
        closingNotification this' = Some {| isUnsubscribed := true |})
  /\ Window_closed this' = true.
Proof.
  intros Hopen Hw Hsub Hcur Hm Hm'. unfold on_window. rewrite Hw.
  destruct this as [d sc subs w0 cn sel calls].
  cbn [destination subjects window closingNotification] in *.
  unfold WindowRef in *. window_eval. rewrite Hm'.
  split; [|split; [|split; [|split; [|split]]]].
  - rewrite list_lookup_alter_eq, Hsub. cbn. by rewrite Hm.
  - intros w' Hne. by rewrite list_lookup_alter_ne.
  - done.
  - by destruct cn as [[]|].
  - by intros sub ->.
  - done.
Qed.
End WindowTerminal.

(** C6. When the source of an open WindowWhen subscriber completes, the
    current window is completed, the outer destination is completed, and the
    closing-notifier subscription is unsubscribed; when the source errors,
    the current window and the outer destination are given the error, and
    the closing-notifier subscription is unsubscribed. No other window is
    touched. *)
Theorem C6_windowWhen_source_terminates :
  forall (T R Err Obs : Type) (this : WindowWhen.WindowSubscriber T Err Obs)
         (w : WindowWhen.WindowRef) (current : Recorder.t T Err)
         (terminal : WindowWhen.Event T R Err) (n : Notification T Err)
         (n' : Notification WindowWhen.WindowRef Err),
    WindowWhen.Window_closed this = false ->
    WindowWhen.window this = Some w ->
    WindowWhen.subjects this !! w = Some current ->
    Recorder.stopped current = false ->
    (terminal = WindowWhen.SrcComplete /\ n = Complete /\ n' = Complete)
    \/ (exists err, terminal = WindowWhen.SrcError err
                    /\ n = Error err /\ n' = Error err) ->
    let this' := WindowWhen.step this terminal in
    WindowWhen.subjects this' !! w
      = Some (Recorder.mk true (Recorder.received current ++ [n]))
    /\ (forall w', w' <> w ->
          WindowWhen.subjects this' !! w' = WindowWhen.subjects this !! w')
    /\ WindowWhen.destination this'
       = Recorder.mk true
           (Recorder.received (WindowWhen.destination this) ++ [n'])
    /\ WindowWhen.notifier_active this' = false
    /\ (forall sub, WindowWhen.closingNotification this = Some sub ->
          WindowWhen.closingNotification this'
          = Some {| isUnsubscribed := true |})
    /\ WindowWhen.Window_closed this' = true.
Proof.
  intros T R Err Obs this w current terminal n n' Hopen Hw Hsub Hcur Hterm.
  assert (Hd : Recorder.stopped (WindowWhen.destination this) = false).
  { revert Hopen. unfold WindowWhen.Window_closed.
    by intros [_ H]%orb_false_iff. }
  destruct Hterm as [(-> & -> & ->) | (err & -> & -> & ->)];
    cbn [WindowWhen.step].
  - assert (Hstep : complete this =
      WindowWhen.Window_unsubscribe
        (WindowWhen.unsubscribeClosingNotification
           (WindowWhen.with_destination
              (complete
                 (WindowWhen.destination (WindowWhen.on_window complete this)))
              (WindowWhen.on_window complete this)))).
    { unfold complete at 1. cbn [closed WindowWhen.hooks]. by rewrite Hopen. }
    rewrite Hstep.
    apply (window_terminal_open this w current Complete Complete
             complete complete);
      try done.
    + by apply recorder_complete_open.
    + by apply recorder_complete_open.
  - assert (Hstep : error err this =
      WindowWhen.Window_unsubscribe
        (WindowWhen.unsubscribeClosingNotification
           (WindowWhen.with_destination
              (error err
                 (WindowWhen.destination
                    (WindowWhen.on_window (error err) this)))
              (WindowWhen.on_window (error err) this)))).
    { unfold error at 1. cbn [closed WindowWhen.hooks]. by rewrite Hopen. }
    rewrite Hstep.
    apply (window_terminal_open this w current (Error err) (Error err)
             (error err) (error err));
      try done.
    + by apply recorder_error_open.
    + by apply recorder_error_open.
Qed.

(** The source completes after the values 1 and 2. *)
Lemma C6_witness :
  WindowWhen.subjects
    (WindowWhen.step
       (WindowWhen.run (R:=Z) [WindowWhen.SrcNext 1; WindowWhen.SrcNext 2]%Z
          (WindowExamples.fresh WindowExamples.always_returns))
       (WindowWhen.SrcComplete (R:=Z))) !! 0
  = Some (Recorder.mk true [Next 1; Next 2; Complete]%Z).
Proof.
  exact (proj1
    (C6_windowWhen_source_terminates Z Z nat unit
       (WindowWhen.run (R:=Z) [WindowWhen.SrcNext 1; WindowWhen.SrcNext 2]%Z
          (WindowExamples.fresh WindowExamples.always_returns))
       0 (Recorder.mk false [Next 1; Next 2]%Z)
       WindowWhen.SrcComplete Complete Complete
       eq_refl eq_refl eq_refl eq_refl
       (or_introl (conj eq_refl (conj eq_refl eq_refl))))).
Defined.

Section WindowSilentNotifier.
Import WindowWhen.
Context {T R Err : Type}.

Lemma silent_completions_count (n : nat) :
  fires (replicate n (NotifierComplete : Event T R Err)) = 0
  /\ notifier_completions (replicate n (NotifierComplete : Event T R Err)) = n
  /\ Forall (fun ev => windowing_event ev = true)
       (replicate n (NotifierComplete : Event T R Err)).
Proof.
  unfold fires, notifier_completions.
  induction n as [|n (IH1 & IH2 & IH3)]; cbn; [done|].
  rewrite IH2. split; [done | split; [done|]]. by constructor.
Qed.
End WindowSilentNotifier.

(** C7. A value and a completion of the closing notifier have the same
    effect on a WindowWhen subscriber. In the state "window-open", with the
    selector returning, the completion of the notifier completes the
    current window, creates a new one and emits it, calls the selector once
    more, and leaves the subscriber in the state "window-open"; so [n]
    notifiers in a row that complete without a value give [n] more windows
    and [n] more calls of the selector, for every [n]. *)
Theorem C7_windowWhen_notifier_completion_cuts :
  (forall (T R Err Obs : Type) (this : WindowWhen.WindowSubscriber T Err Obs)
          (innerValue : R),
     WindowWhen.step this (WindowWhen.NotifierNext innerValue)
     = WindowWhen.step this (WindowWhen.NotifierComplete (T:=T) (R:=R)))
  /\ (forall (T R Err Obs : Type) (this : WindowWhen.WindowSubscriber T Err Obs)
        (finished : list (Recorder.t T Err)) (current : Recorder.t T Err)
        (notifier : Obs),
        window_open this ->
        WindowWhen.subjects this = finished ++ [current] ->
        WindowWhen.closingSelector this (WindowWhen.selectorCalls this)
        = Returns notifier ->
        let this' :=
          WindowWhen.step this (WindowWhen.NotifierComplete (T:=T) (R:=R)) in
        WindowWhen.subjects this'
        = finished
            ++ [Recorder.mk true (Recorder.received current ++ [Complete]);
                Recorder.create]
        /\ WindowWhen.window this' = Some (S (length finished))
        /\ Recorder.received (WindowWhen.destination this')
           = Recorder.received (WindowWhen.destination this)
               ++ [Next (S (length finished))]
        /\ WindowWhen.selectorCalls this' = S (WindowWhen.selectorCalls this)
        /\ window_open this')
  /\ (forall (T R Err Obs : Type)
        (selector : WindowWhen.ClosingSelector Err Obs) (n : nat),
        never_throws selector ->
        let this :=
          WindowWhen.run
            (replicate n (WindowWhen.NotifierComplete (T:=T) (R:=R)))
            (WindowWhen.new_WindowSubscriber Recorder.create selector) in
        WindowWhen.emitted_windows this = seq 0 (n + 1)
        /\ WindowWhen.selectorCalls this = n + 1
        /\ window_open this).
Proof.
  split; [done | split].
  - intros T R Err Obs this finished current notifier Hopen Hsubs Hret this'.
    subst this'. cbn [WindowWhen.step].
    destruct Hopen as [Hs Hd Hn (finished' & current' & Hsubs' & Hw & Hcur & Hfin)].
    rewrite Hsubs in Hsubs'. apply app_inj_tail in Hsubs' as [<- <-].
    unfold WindowWhen.Inner_complete, WindowWhen.notifyComplete,
      WindowWhen.notifier_active.
    rewrite Hn. cbn [negb isUnsubscribed].
    rewrite (openWindow_returns _ true _ _ _ Hsubs Hw Hcur Hd Hret). cbn.
    rewrite <- app_assoc.
    split; [done | split; [done | split; [done | split; [done|]]]].
    split; cbn; [done..|].
    exists (finished ++
              [Recorder.mk true (Recorder.received current ++ [Complete])]),
           Recorder.create.
    rewrite <- app_assoc, length_app, Nat.add_1_r.
    split; [done | split; [done | split; [done|]]].
    apply Forall_app. split; [done | by constructor].
  - intros T R Err Obs selector n Hsel this.
    destruct (silent_completions_count (T:=T) (R:=R) (Err:=Err) n)
      as (Hfires & Hcompl & Hall).
    pose proof (window_open_fresh (T:=T) selector Hsel) as Hfresh.
    destruct (Hsel 0) as [notifier Hret].
    destruct (window_open_run
                (replicate n (WindowWhen.NotifierComplete (T:=T) (R:=R)))
                _ Hfresh)
      as (Hopen & Hcalls & Hem & _); [| done |].
    { by rewrite (new_WindowSubscriber_returns Recorder.create _ _ eq_refl Hret). }
    fold this in Hopen, Hcalls, Hem.
    rewrite Hfires, Hcompl in Hcalls, Hem.
    rewrite (new_WindowSubscriber_returns Recorder.create _ _ eq_refl Hret) in Hcalls, Hem.
    cbn in Hcalls, Hem.
    split; [by rewrite Hem, Nat.add_comm | split; [lia | done]].
Qed.

(** Two notifiers in a row that complete without a value. *)
Lemma C7_witness :
  WindowWhen.emitted_windows
    (WindowWhen.run
       (replicate 2 (WindowWhen.NotifierComplete (T:=Z) (R:=Z)))
       (WindowExamples.fresh WindowExamples.always_returns))
  = [0; 1; 2].
Proof.
  exact (proj1
    (proj2 (proj2 C7_windowWhen_notifier_completion_cuts)
       Z Z nat unit WindowExamples.always_returns 2
       (fun n => ex_intro _ () eq_refl))).
Defined.

(** * Further properties *)

(** ** Distinct: the memory *)

Section DistinctMemory.
Import Distinct.
Context {T Err F : Type}.
Implicit Types (this : DistinctSubscriber T Err) (ev : Event T Err F).

(** What one event does to the memory and to the forwarded values: nothing,
    or it appends the value to both, or it empties the memory. *)
Lemma distinct_step_cases this ev :
  compare (step this ev) = compare this
  /\ ((values (step this ev) = values this
       /\ nexts (output (step this ev)) = nexts (output this))
      \/ (exists value,
            ev = SrcNext value
            /\ all_differ (compare this) (values this) value
            /\ values (step this ev) = values this ++ [value]
            /\ nexts (output (step this ev)) = nexts (output this) ++ [value])
      \/ (exists x,
            ev = FlushNext x
            /\ values (step this ev) = []
            /\ nexts (output (step this ev)) = nexts (output this))).
Proof.
  assert (Hsilent : forall (n : Notification T Err) st,
    nexts [n] = [] ->
    nexts (Recorder.received (Recorder.mk st (output this ++ [n])))
    = nexts (output this)).
  { intros n st Hn. cbn [Recorder.received].
    by rewrite nexts_app, Hn, app_nil_r. }
  destruct ev as [v|e| |x|e|]; cbn [step].
  4: { split; [done|]. right. right. by exists x. }
  5: { split; [done|]. by left. }
  all: destruct (closed this) eqn:Hopen.
  all: try (unfold FlushSubscriber_error, next, error, complete;
            rewrite Hopen; split; [done | by left]).
  - destruct (scan (compare this) (values this) v) as [| |e] eqn:Hscan.
    + rewrite (distinct_next_Found _ _ Hopen Hscan). split; [done | by left].
    + rewrite (distinct_next_NotFound _ _ Hopen Hscan). split; [done|].
      right. left. exists v. split; [done|].
      split; [by apply scan_NotFound|]. split; [done|].
      unfold output at 1. cbn [destination Recorder.received].
      by rewrite nexts_app.
    + rewrite (distinct_next_Caught _ _ _ Hopen Hscan). split; [done|].
      left. split; [done|]. by apply Hsilent.
  - rewrite (distinct_error_open _ _ Hopen). split; [done|].
    left. split; [done|]. by apply Hsilent.
  - rewrite (distinct_complete_open _ Hopen). split; [done|].
    left. split; [done|]. by apply Hsilent.
  - unfold FlushSubscriber_error. rewrite (distinct_error_open _ _ Hopen).
    split; [done|]. left. split; [done|]. by apply Hsilent.
Qed.

Lemma distinct_run_compare (trace : list (Event T Err F)) this :
  compare (run trace this) = compare this.
Proof.
  revert this. induction trace as [|ev trace IH]; intros this; [done|].
  change (run (ev :: trace) this) with (run trace (step this ev)).
  rewrite IH. apply distinct_step_cases.
Qed.

Lemma pairwise_differ_snoc (cmp : @Comparator T Err) (l : list T) (v : T) :
  pairwise_differ cmp l -> all_differ cmp l v -> pairwise_differ cmp (l ++ [v]).
Proof.
  unfold pairwise_differ, all_differ.
  induction 1 as [|x l Hx Hl IH]; intros Hall; cbn.
  - constructor; constructor.
  - apply Forall_cons_1 in Hall as [Hxv Hall]. constructor.
    + apply Forall_app. split; [done | by constructor].
    + by apply IH.
Qed.

(** The memory never holds two values of which the comparator says that
    the later repeats the earlier. *)
Lemma distinct_run_pairwise (trace : list (Event T Err F)) this :
  pairwise_differ (compare this) (values this) ->
  pairwise_differ (compare this) (values (run trace this)).
Proof.
  revert this. induction trace as [|ev trace IH]; intros this Hpw; [done|].
  change (run (ev :: trace) this) with (run trace (step this ev)).
  destruct (distinct_step_cases this ev)
    as [Hcmp [[Hv _] | [(v & _ & Hall & Hv & _) | (x & _ & Hv & _)]]];
    rewrite <- Hcmp; apply IH; rewrite Hcmp, Hv.
  - done.
  - by apply pairwise_differ_snoc.
  - constructor.
Qed.

(** Without a flush the memory grows with the forwarded values. *)
Lemma distinct_run_memory (trace : list (Event T Err F)) this :
  has_flush trace = false ->
  exists forwarded,
    values (run trace this) = values this ++ forwarded
    /\ nexts (output (run trace this)) = nexts (output this) ++ forwarded.
Proof.
  revert this. induction trace as [|ev trace IH]; intros this Hflush.
  { exists []. by rewrite !app_nil_r. }
  change (run (ev :: trace) this) with (run trace (step this ev)).
  cbn in Hflush. apply orb_false_iff in Hflush as [Hev Hflush].
  destruct (IH (step this ev) Hflush) as (l & -> & ->).
  destruct (distinct_step_cases this ev)
    as [_ [[-> ->] | [(v & _ & _ & -> & ->) | (x & -> & _)]]].
  - by exists l.
  - exists (v :: l). by rewrite <- !app_assoc.
  - discriminate Hev.
Qed.
End DistinctMemory.

(** X1. The memory of a Distinct subscriber is what it has forwarded since
    the last value of [flushes]: after a flush, and then any events that
    hold no further flush, the values forwarded since are the memory; so
    are, for a subscriber just built by the operator, the values forwarded
    when no flush came at all. *)
Theorem X1_distinct_memory_is_forwarded_since_flush :
  forall (T Err F : Type) (this : Distinct.DistinctSubscriber T Err)
         (strict_eq : T -> T -> bool) (op : Operators.DistinctOperator T Err)
         (dest : Recorder.t T Err) (x : F)
         (trace : list (Distinct.Event T Err F)),
    has_flush trace = false ->
    nexts (Distinct.output
             (Distinct.run trace (Distinct.step this (Distinct.FlushNext x))))
    = nexts (Distinct.output this)
        ++ Distinct.values
             (Distinct.run trace (Distinct.step this (Distinct.FlushNext x)))
    /\ nexts (Distinct.output
                (Distinct.run trace
                   (Operators.DistinctOperator_call strict_eq op dest)))
       = nexts (Recorder.received dest)
           ++ Distinct.values
                (Distinct.run trace
                   (Operators.DistinctOperator_call strict_eq op dest)).
Proof.
  intros T Err F this strict_eq op dest x trace Hflush. split.
  - destruct (distinct_run_memory trace
                (Distinct.step this (Distinct.FlushNext x)) Hflush)
      as (l & -> & ->).
    done.
  - destruct (distinct_run_memory trace
                (Operators.DistinctOperator_call strict_eq op dest) Hflush)
      as (l & -> & ->).
    done.
Qed.

(** After 1 and 2, a flush, then 2, 2 and 3: the memory is 2, 3. *)
Lemma X1_witness :
  Distinct.values
    (Distinct.run (Examples.source [2; 2; 3]%Z)
       (Distinct.step (Examples.after_12 None) (Distinct.FlushNext 0%Z)))
  = [2; 3]%Z.
Proof.
  pose proof (proj1 (X1_distinct_memory_is_forwarded_since_flush Z nat Z
    (Examples.after_12 None) Z.eqb
    {| Operators.DistinctOperator_compare := None;
       Operators.DistinctOperator_flushes := true |}
    Recorder.create 0%Z (Examples.source [2; 2; 3]%Z) eq_refl)) as H.
  apply (app_inv_head [1; 2]%Z). symmetry. exact H.
Defined.

(** X2. Whatever the comparator (it may throw) and whatever the source and
    [flushes] do, the memory of a subscriber built by the operator never
    holds a value after another one that the comparator said it repeats;
    and when no flush came, neither do the values the destination was
    given. *)
Theorem X2_distinct_output_pairwise_distinct :
  forall (T Err F : Type) (strict_eq : T -> T -> bool)
         (op : Operators.DistinctOperator T Err)
         (trace : list (Distinct.Event T Err F)),
    let this :=
      Distinct.run trace
        (Operators.DistinctOperator_call strict_eq op Recorder.create) in
    pairwise_differ (Distinct.compare this) (Distinct.values this)
    /\ (has_flush trace = false ->
        pairwise_differ (Distinct.compare this)
          (nexts (Distinct.output this))).
Proof.
  intros T Err F strict_eq op trace this.
  set (fresh := Operators.DistinctOperator_call strict_eq op Recorder.create)
    in *.
  assert (Hpw : pairwise_differ (Distinct.compare this) (Distinct.values this)).
  { unfold this. rewrite distinct_run_compare.
    apply distinct_run_pairwise. constructor. }
  split; [done|]. intros Hflush.
  destruct (distinct_run_memory trace fresh Hflush) as (l & Hv & Ho).
  fold this in Hv, Ho. rewrite Ho.
  change (nexts (Distinct.output fresh)) with (Distinct.values fresh).
  by rewrite <- Hv.
Qed.

(** Compared modulo 3, the source 1,2,3,4,5 leaves no two forwarded values
    alike. *)
Lemma X2_witness :
  pairwise_differ Examples.mod3
    (nexts (Distinct.output
              (Distinct.run (Examples.source [1; 2; 3; 4; 5]%Z)
                 (Examples.fresh (Some Examples.mod3) false)))).
Proof.
  exact (proj2 (X2_distinct_output_pairwise_distinct Z nat Z Z.eqb
    {| Operators.DistinctOperator_compare := Some Examples.mod3;
       Operators.DistinctOperator_flushes := false |}
    (Examples.source [1; 2; 3; 4; 5]%Z)) eq_refl).
Defined.

(** ** Distinct: what gets through *)

Section DistinctForwarding.
Import Distinct.
Context {T Err F : Type}.
Implicit Types (this : DistinctSubscriber T Err) (cmp : @Comparator T Err).

Lemma scan_Found cmp vals value :
  scan cmp vals value = Found <->
  exists before existing after,
    vals = before ++ existing :: after
    /\ all_differ cmp before value
    /\ cmp existing value = Returns true.
Proof.
  unfold all_differ. induction vals as [|x vals IH]; cbn.
  - split; [discriminate |].
    intros (before & existing & after & H & _). by destruct before.
  - destruct (cmp x value) as [[|]|e] eqn:Hx.
    + split; [|done]. intros _. by exists [], x, vals.
    + rewrite IH. split.
      * intros (before & existing & after & -> & Hall & Htrue).
        exists (x :: before), existing, after.
        by repeat split; [constructor|].
      * intros ([|y before] & existing & after & H & Hall & Htrue);
          simplify_eq/=; [congruence |].
        exists before, existing, after. by inversion Hall.
    + split; [discriminate |].
      intros ([|y before] & existing & after & H & Hall & Htrue);
        simplify_eq/=; [congruence |].
      inversion Hall; congruence.
Qed.

Lemma pairwise_differ_middle cmp (l1 l2 : list T) (v : T) :
  pairwise_differ cmp (l1 ++ v :: l2) -> all_differ cmp l1 v.
Proof.
  unfold pairwise_differ, all_differ.
  induction l1 as [|x l1 IH]; cbn; intros Hpw; [constructor|].
  inversion Hpw as [|? ? Hx Hrest]; subst. constructor.
  - apply Forall_app in Hx as [_ Hx]. by apply Forall_cons_1 in Hx as [Hx _].
  - by apply IH.
Qed.

(** Values that differ from the memory and from one another all get
    through, in order. *)
Lemma distinct_run_all_new (l : list T) this :
  closed this = false ->
  pairwise_differ (compare this) (values this ++ l) ->
  nexts (output (run (F:=F) (SrcNext <$> l) this)) = nexts (output this) ++ l.
Proof.
  revert this. induction l as [|v l IH]; intros this Hopen Hpw.
  { cbn. by rewrite app_nil_r. }
  change (run (SrcNext <$> v :: l) this)
    with (run (F:=F) (SrcNext <$> l) (next v this)).
  assert (Hscan : scan (compare this) (values this) v = NotFound).
  { apply scan_NotFound. by eapply pairwise_differ_middle. }
  rewrite (distinct_next_NotFound _ _ Hopen Hscan).
  rewrite IH.
  - unfold output at 1. cbn [destination Recorder.received].
    by rewrite nexts_app, <- app_assoc.
  - revert Hopen. cbn. unfold Distinct_closed. cbn.
    by intros [-> _]%orb_false_iff.
  - cbn [compare values]. by rewrite <- app_assoc.
Qed.

(** No source value is dropped unless the memory holds a value the
    comparator matches it with. *)
Lemma distinct_by_spec_complete (c : T -> T -> bool) (vs memory : list T)
    (v : T) :
  v ∈ vs ->
  exists x, x ∈ memory ++ distinct_by_spec c memory vs
            /\ (x = v \/ c x v = true).
Proof.
  revert memory. induction vs as [|a vs IH]; intros memory Hin.
  { by apply elem_of_nil in Hin. }
  cbn [distinct_by_spec].
  destruct (existsb (fun existing => c existing a) memory) eqn:Hex.
  - apply elem_of_cons in Hin as [-> | Hin]; [|by apply IH].
    apply existsb_exists in Hex as (x & Hx & Hc).
    exists x. split; [|by right].
    apply elem_of_app. left. by apply list_elem_of_In.
  - apply elem_of_cons in Hin as [-> | Hin].
    + exists a. split; [|by left].
      apply elem_of_app. right. by left.
    + destruct (IH (memory ++ [a]) Hin) as (x & Hx & Hc).
      exists x. split; [|done]. by rewrite <- app_assoc in Hx.
Qed.

Lemma ForallOrdPairs_mono (P Q : T -> T -> Prop) (l : list T) :
  (forall x y, P x y -> Q x y) -> ForallOrdPairs P l -> ForallOrdPairs Q l.
Proof.
  intros HPQ. induction 1 as [|x l Hx _ IH]; constructor; [|done].
  eapply List.Forall_impl; [|exact Hx]. apply HPQ.
Qed.

Lemma pairwise_distinct_NoDup (l : list T) :
  ForallOrdPairs (fun x y => x <> y) l -> NoDup l.
Proof.
  induction 1 as [|x l Hx _ IH]; constructor; [|done].
  intros Hin%list_elem_of_In.
  exact (proj1 (List.Forall_forall _ _) Hx x Hin eq_refl).
Qed.
End DistinctForwarding.

(** X3. With a comparator that returns (or the default [===]) and a source
    that only emits values, no source value is lost without a trace: each
    one is in the output, or the output holds an earlier value the
    comparator matches it with. *)
Theorem X3_distinct_suppressed_values_are_represented :
  forall (T Err F : Type) (strict_eq : T -> T -> bool)
         (compare : option (T -> T -> bool)) (flushes : bool)
         (source : list T) (value : T),
    value ∈ source ->
    exists x,
      x ∈ nexts (Distinct.output
                   (Distinct.run (F:=F) (Distinct.SrcNext <$> source)
                      (Operators.DistinctOperator_call (Err:=Err) strict_eq
                         {| Operators.DistinctOperator_compare :=
                              (fun c x y => Returns (c x y)) <$> compare;
                            Operators.DistinctOperator_flushes := flushes |}
                         Recorder.create)))
      /\ (x = value \/ default strict_eq compare x value = true).
Proof.
  intros T Err F strict_eq compare flushes source value Hin.
  rewrite (distinct_run_returns (default strict_eq compare));
    [| done | by destruct compare].
  exact (distinct_by_spec_complete _ source [] value Hin).
Qed.

(** Compared modulo 3, 5 is represented in the output of 1,2,3,4,5. *)
Lemma X3_witness :
  exists x,
    x ∈ [1; 2; 3]%Z /\ (x = 5%Z \/ (Z.rem x 3 =? Z.rem 5 3)%Z = true).
Proof.
  exact (X3_distinct_suppressed_values_are_represented Z nat Z Z.eqb
           (Some (fun x y => (Z.rem x 3 =? Z.rem y 3)%Z)) false
           [1; 2; 3; 4; 5]%Z 5%Z
           ltac:(repeat constructor)).
Defined.

(** X4. Distinct is idempotent: when no flush came, feeding what a
    subscriber forwarded to a new subscriber with the same comparator
    forwards all of it again, unchanged. The comparator may throw. *)
Theorem X4_distinct_is_idempotent :
  forall (T Err F : Type) (strict_eq : T -> T -> bool)
         (op : Operators.DistinctOperator T Err)
         (trace : list (Distinct.Event T Err F)),
    has_flush trace = false ->
    let forwarded :=
      nexts (Distinct.output
               (Distinct.run trace
                  (Operators.DistinctOperator_call strict_eq op
                     Recorder.create))) in
    nexts (Distinct.output
             (Distinct.run (F:=F) (Distinct.SrcNext <$> forwarded)
                (Operators.DistinctOperator_call strict_eq op
                   Recorder.create)))
    = forwarded.
Proof.
  intros T Err F strict_eq op trace Hflush forwarded.
  set (fresh := Operators.DistinctOperator_call strict_eq op Recorder.create).
  rewrite distinct_run_all_new; [done | done |].
  destruct (distinct_run_memory trace fresh Hflush) as (l & Hv & Ho).
  change (Distinct.values fresh ++ forwarded) with forwarded.
  unfold forwarded. fold fresh. rewrite Ho.
  change (nexts (Distinct.output fresh)) with (Distinct.values fresh).
  rewrite <- Hv. apply distinct_run_pairwise. constructor.
Qed.

(** The output 1,2,3 of the source 1,2,2,3,1 goes through unchanged. *)
Lemma X4_witness :
  nexts (Distinct.output
           (Distinct.run (Examples.source [1; 2; 3]%Z)
              (Examples.fresh None false)))
  = [1; 2; 3]%Z.
Proof.
  exact (X4_distinct_is_idempotent Z nat Z Z.eqb
    {| Operators.DistinctOperator_compare := None;
       Operators.DistinctOperator_flushes := false |}
    (Examples.source [1; 2; 2; 3; 1]%Z) eq_refl).
Defined.

(** X5. When [===] decides equality on the values (it does not on NaN) and
    no comparator is given, the output of a source that only emits values
    has no value twice and holds exactly the values of the source. *)
Theorem X5_distinct_default_has_no_duplicates :
  forall (T Err F : Type) (strict_eq : T -> T -> bool) (flushes : bool)
         (source : list T),
    (forall x y, strict_eq x y = true <-> x = y) ->
    let forwarded :=
      nexts (Distinct.output
               (Distinct.run (F:=F) (Distinct.SrcNext <$> source)
                  (Operators.DistinctOperator_call (Err:=Err) strict_eq
                     {| Operators.DistinctOperator_compare := None;
                        Operators.DistinctOperator_flushes := flushes |}
                     Recorder.create))) in
    NoDup forwarded /\ forall value, value ∈ forwarded <-> value ∈ source.
Proof.
  intros T Err F strict_eq flushes source Heq forwarded.
  set (fresh := Operators.DistinctOperator_call _ _ _) in forwarded.
  assert (Hflush : has_flush (F:=F) (Err:=Err) (Distinct.SrcNext <$> source)
                   = false).
  { clear. induction source as [|v source IH]; [done | exact IH]. }
  assert (Hsrc : Distinct.src_values (F:=F) (Err:=Err)
                   (Distinct.SrcNext <$> source) = source).
  { clear. induction source as [|v source IH]; [done|].
    cbn. f_equal. exact IH. }
  split.
  - apply pairwise_distinct_NoDup.
    destruct (distinct_run_memory _ fresh Hflush) as (l & Hv & Ho).
    unfold forwarded. rewrite Ho.
    change (nexts (Distinct.output fresh)) with (Distinct.values fresh).
    rewrite <- Hv.
    pose proof (distinct_run_pairwise (F:=F) (Distinct.SrcNext <$> source)
                  fresh ltac:(constructor)) as Hpw.
    unfold pairwise_differ in Hpw.
    eapply ForallOrdPairs_mono; [|exact Hpw].
    intros x y Hxy ->. cbn in Hxy. unfold Distinct.default_compare in Hxy.
    assert (strict_eq y y = true) as Hyy by (by apply Heq). congruence.
  - intros value. split.
    + intros Hin.
      destruct (distinct_run_nexts (F:=F) (Distinct.SrcNext <$> source) fresh)
        as (l & Hl & Hsub).
      rewrite Hsrc in Hsub. eapply elem_of_sublist; [|exact Hsub].
      unfold forwarded in Hin. by rewrite Hl in Hin.
    + intros Hin. unfold forwarded, fresh.
      rewrite (distinct_run_returns strict_eq); [| done | done].
      destruct (distinct_by_spec_complete strict_eq source [] value Hin)
        as (x & Hx & [-> | Hc]); [done|].
      apply Heq in Hc. by subst.
Qed.

(** Numbers with [=?]: the source 1,2,2,3,1. *)
Lemma X5_witness :
  NoDup [1; 2; 3]%Z.
Proof.
  exact (proj1 (X5_distinct_default_has_no_duplicates Z nat Z Z.eqb false
                  [1; 2; 2; 3; 1]%Z Z.eqb_eq)).
Defined.

(** X6. The scan stops at the first entry of the memory the comparator
    matches the value with: the value is then suppressed and the subscriber
    is left exactly as it was, whatever the comparator would do, throwing
    included, on the entries after that one. *)
Theorem X6_distinct_match_stops_the_scan :
  forall (T Err : Type) (this : Distinct.DistinctSubscriber T Err)
         (value existing : T) (before after : list T),
    closed this = false ->
    Distinct.values this = before ++ existing :: after ->
    all_differ (Distinct.compare this) before value ->
    Distinct.compare this existing value = Returns true ->
    next value this = this.
Proof.
  intros T Err this value existing before after Hopen Hvals Hall Htrue.
  apply distinct_next_Found; [done|].
  apply scan_Found. by exists before, existing, after.
Qed.

(** With the memory 1,2 and the comparator that throws when asked about 3
    against anything but itself: here the match on 1 comes first. *)
Lemma X6_witness :
  next 1%Z (Examples.after_12 (Some Examples.throws_on_3))
  = Examples.after_12 (Some Examples.throws_on_3).
Proof.
  exact (X6_distinct_match_stops_the_scan Z nat
           (Examples.after_12 (Some Examples.throws_on_3)) 1%Z 1%Z [] [2%Z]
           eq_refl eq_refl (Forall_nil_2 _) eq_refl).
Defined.

(** X7. The completion and the error of the source go through an open
    Distinct subscriber unchanged: the destination is given the same
    notification, the memory is kept, the subscriber is closed, and
    whatever the source or [flushes] do later, the destination is given
    nothing more. *)
Theorem X7_distinct_source_terminates :
  forall (T Err F : Type) (this : Distinct.DistinctSubscriber T Err)
         (terminal : Distinct.Event T Err F) (n : Notification T Err)
         (later : list (Distinct.Event T Err F)),
    closed this = false ->
    (terminal = Distinct.SrcComplete /\ n = Complete)
    \/ (exists err, terminal = Distinct.SrcError err /\ n = Error err) ->
    let this' := Distinct.step this terminal in
    Distinct.output this' = Distinct.output this ++ [n]
    /\ Distinct.values this' = Distinct.values this
    /\ closed this' = true
    /\ Distinct.output (Distinct.run later this')
       = Distinct.output this ++ [n].
Proof.
  intros T Err F this terminal n later Hopen Hterm this'.
  assert (Hstep : this' =
    Distinct.mkDistinct (Recorder.mk true (Distinct.output this ++ [n]))
      true (Distinct.values this) (Distinct.compare this)
      (Subscription_unsubscribe <$> Distinct.flushSubscription this)).
  { subst this'. destruct Hterm as [(-> & ->) | (err & -> & ->)].
    - by apply distinct_complete_open.
    - by apply distinct_error_open. }
  rewrite Hstep. clear Hstep this'.
  set (this' := Distinct.mkDistinct _ _ _ _ _).
  assert (Hclosed : closed this' = true) by reflexivity.
  split; [done | split; [done | split; [done|]]].
  by destruct (distinct_run_closed later this' Hclosed) as [_ ->].
Qed.

(** The source completes after 1 and 2, then emits 3, and [flushes] fires. *)
Lemma X7_witness :
  Distinct.output
    (Distinct.run [Distinct.SrcNext 3%Z; Distinct.FlushNext 0%Z;
                   Distinct.SrcNext 1%Z]
       (Distinct.step (Examples.after_12 None)
          (Distinct.SrcComplete (F:=Z))))
  = [Next 1%Z; Next 2%Z; Complete].
Proof.
  exact (proj2 (proj2 (proj2
    (X7_distinct_source_terminates Z nat Z (Examples.after_12 None)
       Distinct.SrcComplete Complete
       [Distinct.SrcNext 3%Z; Distinct.FlushNext 0%Z; Distinct.SrcNext 1%Z]
       eq_refl (or_introl (conj eq_refl eq_refl)))))).
Defined.

(** ** WindowWhen: every way out of the state "window-open" *)

Section WindowExits.
Import WindowWhen.
Context {T R Err Obs : Type}.
Implicit Types (this : WindowSubscriber T Err Obs) (ev : Event T R Err).

(** The closing selector throws when a notifier cuts the current window. *)
Lemma openWindow_throws this finished current err :
  window_open this ->
  subjects this = finished ++ [current] ->
  closingSelector this (selectorCalls this) = Throws err ->
  openWindow true this =
    mkWindow
      (Recorder.mk true
         (Recorder.received (destination this)
            ++ [Next (Datatypes.S (length finished)); Error err]))
      false
      ((finished ++ [Recorder.mk true (Recorder.received current ++ [Complete])])
         ++ [Recorder.mk true [Error err]])
      (Some (Datatypes.S (length finished)))
      (Some {| isUnsubscribed := true |})
      (closingSelector this)
      (Datatypes.S (selectorCalls this)).
Proof.
  intros [Hs Hd Hn (finished' & current' & Hsubs' & Hw & Hcur & _)] Hsubs.
  rewrite Hsubs in Hsubs'. apply app_inj_tail in Hsubs' as [<- <-].
  destruct this as [[dst dlog] sc subs w cn sel calls].
  destruct current as [cst clog].
  cbn [destination selfClosed subjects window closingNotification
       closingSelector selectorCalls Recorder.stopped Recorder.received] in *.
  subst. intros Hsel. window_eval. rewrite Hsel, !alter_last.
  rewrite !length_app. cbn [length]. rewrite Nat.add_1_r.
  cbn. unfold Recorder.stop, Recorder.record. cbn.
  by rewrite <- app_assoc.
Qed.

(** The source of a subscriber in the state "window-open" errors. *)
Lemma window_error_open this finished current err :
  window_open this ->
  subjects this = finished ++ [current] ->
  error err this =
    mkWindow
      (Recorder.mk true (Recorder.received (destination this) ++ [Error err]))
      true
      (finished ++ [Recorder.mk true (Recorder.received current ++ [Error err])])
      (window this)
      (Some {| isUnsubscribed := true |})
      (closingSelector this) (selectorCalls this).
Proof.
  intros [Hs Hd Hn (finished' & current' & Hsubs' & Hw & Hcur & _)] Hsubs.
  rewrite Hsubs in Hsubs'. apply app_inj_tail in Hsubs' as [<- <-].
  destruct this as [[dst dlog] sc subs w cn sel calls].
  destruct current as [cst clog].
  cbn [destination selfClosed subjects window closingNotification
       closingSelector selectorCalls Recorder.stopped Recorder.received] in *.
  subst. unfold error at 1.
  cbn [closed unsubscribe _error hooks]. window_eval. cbn [orb].
  by rewrite alter_last.
Qed.

(** The closing notifier of a subscriber in the state "window-open"
    errors. *)
Lemma Inner_error_open this finished current err :
  window_open this ->
  subjects this = finished ++ [current] ->
  Inner_error err this =
    mkWindow
      (Recorder.mk true (Recorder.received (destination this) ++ [Error err]))
      false
      (finished ++ [Recorder.mk true (Recorder.received current ++ [Error err])])
      (window this)
      (Some {| isUnsubscribed := true |})
      (closingSelector this) (selectorCalls this).
Proof.
  intros [Hs Hd Hn (finished' & current' & Hsubs' & Hw & Hcur & _)] Hsubs.
  rewrite Hsubs in Hsubs'. apply app_inj_tail in Hsubs' as [<- <-].
  destruct this as [[dst dlog] sc subs w cn sel calls].
  destruct current as [cst clog].
  cbn [destination selfClosed subjects window closingNotification
       closingSelector selectorCalls Recorder.stopped Recorder.received] in *.
  subst. unfold Inner_error, notifyError.
  cbn [_error hooks]. window_eval. cbn [negb isUnsubscribed].
  by rewrite alter_last.
Qed.

Lemma halted_terminal
    (dlog : list (Notification WindowRef Err)) (sc : bool)
    (finished : list (Recorder.t T Err)) (last : Recorder.t T Err)
    (w : option WindowRef) (sel : ClosingSelector Err Obs) (calls : nat) :
  Forall (fun subject => Recorder.stopped subject = true) finished ->
  Recorder.stopped last = true ->
  halted (mkWindow (Recorder.mk true dlog) sc (finished ++ [last]) w
            (Some {| isUnsubscribed := true |}) sel calls).
Proof.
  intros Hfin Hlast. split.
  - unfold Window_closed. cbn. apply orb_true_r.
  - done.
  - cbn [subjects]. apply Forall_app. split; [done | by constructor].
Qed.

Lemma halted_run (trace : list (Event T R Err)) this :
  halted this -> run trace this = this.
Proof. intros [Hc Hn _]. by apply window_run_halted. Qed.
End WindowExits.

(** ** WindowWhen: what every reachable state keeps *)

Section WindowReachable.
Import WindowWhen.
Context {T R Err Obs : Type}.
Implicit Types (this : WindowSubscriber T Err Obs) (ev : Event T R Err).

(** Any event at all, on a subscriber in the state "window-open", with any
    closing selector. *)
Lemma window_step_any this ev :
  window_open this ->
  (window_open (step this ev) \/ halted (step this ev))
  /\ closingSelector (step this ev) = closingSelector this
  /\ selectorCalls (step this ev) = selectorCalls this + opens ev
  /\ length (subjects (step this ev)) = length (subjects this) + opens ev
  /\ emitted_windows (step this ev) =
     emitted_windows this ++ seq (length (subjects this)) (opens ev)
  /\ window (step this ev) = Some (pred (length (subjects (step this ev))))
  /\ all_contents (step this ev) = all_contents this ++ src_values [ev].
Proof.
  intros Hopen.
  pose proof (window_open_not_closed _ Hopen) as Hnc.
  destruct (window_open_subjects _ Hopen)
    as (finished & current & Hsubs & Hw & Hcur & Hfin).
  pose proof (window_open_destination _ Hopen) as Hd.
  pose proof (window_open_notifier _ Hopen) as Hn.
  pose proof (window_open_self _ Hopen) as Hs.
  assert (Hlen : length (subjects this) = Datatypes.S (length finished)).
  { by rewrite Hsubs, length_app, Nat.add_1_r. }
  assert (Hall : all_contents this
                 = mjoin (contents <$> finished) ++ contents current).
  { unfold all_contents. by rewrite Hsubs, join_contents_snoc. }
  assert (Hterminal : forall (n : Notification T Err)
                             (n' : Notification WindowRef Err) sc,
    nexts [n] = [] -> nexts [n'] = [] ->
    let s' :=
      mkWindow
        (Recorder.mk true (Recorder.received (destination this) ++ [n']))
        sc
        (finished ++ [Recorder.mk true (Recorder.received current ++ [n])])
        (window this) (Some {| isUnsubscribed := true |})
        (closingSelector this) (selectorCalls this) in
    (window_open s' \/ halted s')
    /\ closingSelector s' = closingSelector this
    /\ selectorCalls s' = selectorCalls this + 0
    /\ length (subjects s') = length (subjects this) + 0
    /\ emitted_windows s' = emitted_windows this ++ seq (length (subjects this)) 0
    /\ window s' = Some (pred (length (subjects s')))
    /\ all_contents s' = all_contents this ++ []).
  { intros n n' sc Hn0 Hn0' s'. subst s'.
    split; [right; by apply halted_terminal|].
    split; [done|]. split; [cbn; lia|].
    split; [cbn [subjects]; rewrite Hlen, length_app; cbn; lia|].
    split.
    { unfold emitted_windows. cbn [destination Recorder.received seq].
      by rewrite nexts_app, Hn0'. }
    split.
    { cbn [window subjects]. by rewrite Hw, length_app, Nat.add_1_r. }
    unfold all_contents at 1. cbn [subjects].
    by rewrite join_contents_snoc, contents_record, Hn0, Hall, !app_nil_r. }
  assert (Hcut :
    let s' := openWindow true this in
    (window_open s' \/ halted s')
    /\ closingSelector s' = closingSelector this
    /\ selectorCalls s' = selectorCalls this + 1
    /\ length (subjects s') = length (subjects this) + 1
    /\ emitted_windows s' = emitted_windows this ++ seq (length (subjects this)) 1
    /\ window s' = Some (pred (length (subjects s')))
    /\ all_contents s' = all_contents this ++ []).
  { cbn zeta.
    destruct (closingSelector this (selectorCalls this)) as [notifier|err]
      eqn:Hsel.
    - rewrite (openWindow_returns _ true _ _ _ Hsubs Hw Hcur Hd Hsel).
      split.
      { left. split; cbn; [done..|].
        exists (finished ++
                  [Recorder.mk true (Recorder.received current ++ [Complete])]),
               Recorder.create.
        split; [done|]. rewrite length_app, Nat.add_1_r.
        split; [done | split; [done|]].
        apply Forall_app. split; [done | by constructor]. }
      split; [done|]. split; [cbn; lia|].
      split; [cbn [subjects]; rewrite Hlen, !length_app; cbn; lia|].
      split.
      { unfold emitted_windows. cbn [destination Recorder.received].
        by rewrite nexts_app, Hlen. }
      split.
      { cbn [window subjects]. rewrite !length_app. cbn [length].
        by rewrite !Nat.add_1_r. }
      unfold all_contents at 1. cbn [subjects].
      rewrite !join_contents_snoc, contents_record, Hall.
      change (nexts [Complete]) with (@nil T).
      change (contents Recorder.create) with (@nil T).
      by rewrite !app_nil_r.
    - rewrite (openWindow_throws _ _ _ _ Hopen Hsubs Hsel).
      split.
      { right. apply halted_terminal; [|done].
        apply Forall_app. split; [done | by constructor]. }
      split; [done|]. split; [cbn; lia|].
      split; [cbn [subjects]; rewrite Hlen, !length_app; cbn; lia|].
      split.
      { unfold emitted_windows. cbn [destination Recorder.received].
        by rewrite nexts_app, Hlen. }
      split.
      { cbn [window subjects]. rewrite !length_app. cbn [length].
        by rewrite !Nat.add_1_r. }
      unfold all_contents at 1. cbn [subjects].
      rewrite !join_contents_snoc, contents_record, Hall.
      change (nexts [Complete]) with (@nil T).
      change (contents (Recorder.mk true [Error err])) with (@nil T).
      by rewrite !app_nil_r. }
  destruct ev as [v|e| |x|e|];
    cbn [step opens is_notifier_value is_notifier_completion orb].
  - rewrite (window_next_open _ v _ _ Hnc Hsubs Hw Hcur).
    split.
    { left. split; cbn; [done..|].
      eexists finished, _. by repeat split. }
    split; [done|]. split; [cbn; lia|].
    split; [cbn [with_subjects subjects]; rewrite Hlen, length_app; cbn; lia|].
    split; [cbn; by rewrite app_nil_r|].
    split.
    { cbn [with_subjects window subjects].
      by rewrite Hw, length_app, Nat.add_1_r. }
    unfold all_contents at 1. cbn [with_subjects subjects].
    rewrite join_contents_snoc, contents_record, Hall.
    change (nexts [Next v]) with [v].
    change (src_values [SrcNext v]) with [v].
    by rewrite app_assoc.
  - rewrite (window_error_open _ _ _ _ Hopen Hsubs).
    by apply (Hterminal (Error e) (Error e) true).
  - rewrite (window_complete_open _ _ _ Hopen Hsubs).
    by apply (Hterminal Complete Complete true).
  - unfold Inner_next, notifyNext, notifier_active. rewrite Hn.
    cbn [negb isUnsubscribed]. apply Hcut.
  - rewrite (Inner_error_open _ _ _ _ Hopen Hsubs).
    apply (Hterminal (Error e) (Error e) false); try done.
  - unfold Inner_complete, notifyComplete, notifier_active. rewrite Hn.
    cbn [negb isUnsubscribed]. apply Hcut.
Qed.
End WindowReachable.

Section WindowRuns.
Import WindowWhen.
Context {T R Err Obs : Type}.
Implicit Types (this : WindowSubscriber T Err Obs) (ev : Event T R Err).

Lemma window_open_not_halted this : window_open this -> halted this -> False.
Proof.
  intros Hopen [Hc _ _]. rewrite (window_open_not_closed _ Hopen) in Hc.
  discriminate Hc.
Qed.

Lemma opens_le_cons ev (trace : list (Event T R Err)) k :
  k <= fires trace + notifier_completions trace ->
  opens ev + k <= fires (ev :: trace) + notifier_completions (ev :: trace).
Proof. rewrite count_events_cons. lia. Qed.

(** Any trace at all, from the state "window-open", with any selector. *)
Lemma window_run_any (trace : list (Event T R Err)) this :
  window_open this ->
  (window_open (run trace this) \/ halted (run trace this))
  /\ exists k delivered,
       k <= fires trace + notifier_completions trace
       /\ selectorCalls (run trace this) = selectorCalls this + k
       /\ length (subjects (run trace this)) = length (subjects this) + k
       /\ emitted_windows (run trace this) =
          emitted_windows this ++ seq (length (subjects this)) k
       /\ window (run trace this)
          = Some (pred (length (subjects (run trace this))))
       /\ all_contents (run trace this) = all_contents this ++ delivered
       /\ delivered `prefix_of` src_values trace
       /\ (window_open (run trace this) -> delivered = src_values trace).
Proof.
  revert this. induction trace as [|ev trace IH]; intros this Hopen.
  { split; [by left|]. exists 0, []. cbn [run foldl seq].
    rewrite !app_nil_r, !Nat.add_0_r. repeat split; try done; try lia.
    destruct (window_open_subjects _ Hopen) as (f & c & -> & -> & _).
    by rewrite length_app, Nat.add_1_r. }
  change (run (ev :: trace) this) with (run trace (step this ev)).
  destruct (window_step_any this ev Hopen)
    as ([Hopen' | Hhalt] & _ & Hcalls & Hlen & Hem & Hw & Hcont).
  - destruct (IH _ Hopen')
      as (Hstate & k & delivered & Hk & H1 & H2 & H3 & H4 & H5 & H6 & H7).
    split; [done|].
    exists (opens ev + k), (src_values [ev] ++ delivered).
    split; [by apply opens_le_cons|].
    split; [lia|]. split; [lia|].
    split; [by rewrite H3, Hem, Hlen, <- app_assoc, seq_app|].
    split; [done|].
    split; [by rewrite H5, Hcont, <- app_assoc|].
    replace (src_values (ev :: trace))
      with (src_values [ev] ++ src_values trace)
      by (symmetry; apply (omap_app _ [ev] trace)).
    split; [by apply prefix_app|].
    intros Hfinal. by rewrite (H7 Hfinal).
  - rewrite (halted_run trace _ Hhalt).
    split; [by right|].
    exists (opens ev), (src_values [ev]).
    split; [pose proof (opens_le_cons ev trace 0); lia|].
    split; [done|]. split; [done|]. split; [done|]. split; [done|].
    split; [done|].
    replace (src_values (ev :: trace))
      with (src_values [ev] ++ src_values trace)
      by (symmetry; apply (omap_app _ [ev] trace)).
    split; [by apply prefix_app_r|].
    intros Hfinal. destruct (window_open_not_halted _ Hfinal Hhalt).
Qed.

(** The same from the subscriber the operator builds on a destination that
    has been given nothing yet. *)
Lemma window_run_fresh (selector : ClosingSelector Err Obs)
    (trace : list (Event T R Err)) :
  let s := run trace (new_WindowSubscriber (T:=T) Recorder.create selector) in
  (window_open s \/ halted s)
  /\ selectorCalls s = length (subjects s)
  /\ emitted_windows s = seq 0 (length (subjects s))
  /\ 1 <= length (subjects s) <= 1 + (fires trace + notifier_completions trace)
  /\ window s = Some (pred (length (subjects s)))
  /\ all_contents s `prefix_of` src_values trace
  /\ (window_open s -> all_contents s = src_values trace).
Proof.
  cbn zeta. destruct (selector 0) as [notifier|err] eqn:Hsel.
  - destruct (window_run_any trace
                (new_WindowSubscriber (T:=T) Recorder.create selector))
      as (Hstate & k & delivered & Hk & H1 & H2 & H3 & H4 & H5 & H6 & H7).
    { rewrite (new_WindowSubscriber_returns Recorder.create _ _ eq_refl Hsel).
      split; cbn; [done..|]. exists [], Recorder.create. by repeat split. }
    rewrite (new_WindowSubscriber_returns Recorder.create _ _ eq_refl Hsel)
      in *.
    cbn [selectorCalls subjects length] in H1, H2, H3.
    change (emitted_windows _ ++ seq 1 k) with (seq 0 (1 + k)) in H3.
    change (all_contents _ ++ delivered) with delivered in H5.
    split; [done|]. rewrite H1, H2, H3, H5.
    split; [done|]. split; [done|]. split; [lia|]. split; [by rewrite H4, H2|].
    done.
  - assert (Hhalt : halted
      (new_WindowSubscriber (T:=T) Recorder.create selector)).
    { rewrite (new_WindowSubscriber_throws Recorder.create _ _ eq_refl Hsel).
      split; [done | done | by repeat constructor]. }
    rewrite (halted_run trace _ Hhalt).
    rewrite (new_WindowSubscriber_throws Recorder.create _ _ eq_refl Hsel)
      in *.
    split; [by right|]. split; [done|]. split; [done|].
    split; [cbn; lia|]. split; [done|].
    split; [apply prefix_nil|].
    intros Hfinal. destruct (window_open_not_halted _ Hfinal Hhalt).
Qed.
End WindowRuns.

(** X8. Whatever the closing selector does (it may throw at any call) and
    whatever the source and the notifiers do, a WindowWhen subscriber built
    on a fresh destination has called the selector once for each window it
    created, has emitted each window once, in creation order, has created
    at least one window and at most one more per notifier value or
    completion, and [this.window] refers to the last one created. *)
Theorem X8_windowWhen_each_window_emitted_once :
  forall (T R Err Obs : Type) (op : Operators.WindowOperator Err Obs)
         (trace : list (WindowWhen.Event T R Err)),
    let this :=
      WindowWhen.run trace
        (Operators.WindowOperator_call (T:=T) op Recorder.create) in
    let created := length (WindowWhen.subjects this) in
    WindowWhen.selectorCalls this = created
    /\ WindowWhen.emitted_windows this = seq 0 created
    /\ 1 <= created
       <= 1 + (WindowWhen.fires trace + WindowWhen.notifier_completions trace)
    /\ WindowWhen.window this = Some (pred created).
Proof.
  intros T R Err Obs op trace this created.
  destruct (window_run_fresh
              (Operators.WindowOperator_closingSelector op) trace)
    as (_ & H1 & H2 & H3 & H4 & _).
  done.
Qed.

(** X9. At most one window is open at any time, whatever happens: either
    the subscriber is in the state "window-open" and the only open window is
    the one [this.window] refers to, or it has halted and every window has
    been completed or errored. *)
Theorem X9_windowWhen_at_most_one_open_window :
  forall (T R Err Obs : Type) (op : Operators.WindowOperator Err Obs)
         (trace : list (WindowWhen.Event T R Err)),
    let this :=
      WindowWhen.run trace
        (Operators.WindowOperator_call (T:=T) op Recorder.create) in
    (window_open this
     /\ exists w, WindowWhen.window this = Some w /\ open_windows this = [w])
    \/ (halted this /\ open_windows this = []).
Proof.
  intros T R Err Obs op trace this.
  destruct (window_run_fresh
              (Operators.WindowOperator_closingSelector op) trace)
    as ([Hopen | Hhalt] & _).
  - left. split; [done|]. by apply window_open_one.
  - right. split; [done|]. apply open_windows_none. by destruct Hhalt.
Qed.

(** X10. Whatever happens, the contents of the emitted windows, one after
    the other, are a prefix of the values the source emitted: the values
    that arrived before the subscriber halted, in order and each once. As
    long as the subscriber is in the state "window-open", they are all the
    values of the source. *)
Theorem X10_windowWhen_windows_hold_a_prefix_of_the_source :
  forall (T R Err Obs : Type) (op : Operators.WindowOperator Err Obs)
         (trace : list (WindowWhen.Event T R Err)),
    let this :=
      WindowWhen.run trace
        (Operators.WindowOperator_call (T:=T) op Recorder.create) in
    WindowWhen.concatenated this `prefix_of` WindowWhen.src_values trace
    /\ (window_open this ->
        WindowWhen.concatenated this = WindowWhen.src_values trace).
Proof.
  intros T R Err Obs op trace this.
  destruct (window_run_fresh
              (Operators.WindowOperator_closingSelector op) trace)
    as (_ & _ & Hem & _ & _ & Hprefix & Hall).
  fold this in Hem, Hprefix, Hall.
  by rewrite (concatenated_all this Hem).
Qed.

(** The source goes on after it completed: the late value 9 is in no
    window. *)
Lemma X10_witness :
  WindowWhen.concatenated
    (WindowWhen.run
       [WindowWhen.SrcNext 1; WindowWhen.NotifierNext 0; WindowWhen.SrcNext 2;
        WindowWhen.SrcComplete; WindowWhen.SrcNext 9]%Z
       (WindowExamples.fresh WindowExamples.always_returns))
  `prefix_of` [1; 2; 9]%Z.
Proof.
  exact (proj1 (X10_windowWhen_windows_hold_a_prefix_of_the_source
    Z Z nat unit
    {| Operators.WindowOperator_closingSelector :=
         WindowExamples.always_returns |}
    [WindowWhen.SrcNext 1; WindowWhen.NotifierNext 0; WindowWhen.SrcNext 2;
     WindowWhen.SrcComplete; WindowWhen.SrcNext 9]%Z)).
Defined.

(** X11. When the closing notifier of a subscriber in the state
    "window-open" errors, the current window is given the error and so is
    the outer destination, each as its last notification and both closed by
    it; the other windows are untouched, the notifier subscription is
    unsubscribed, the selector is not called, and no later event changes
    anything: no window is opened after that. The window and the
    destination keep one log each, and nothing is said of the order in
    which the two are told. *)
Theorem X11_windowWhen_notifier_errors :
  forall (T R Err Obs : Type) (this : WindowWhen.WindowSubscriber T Err Obs)
         (finished : list (Recorder.t T Err)) (current : Recorder.t T Err)
         (err : Err) (later : list (WindowWhen.Event T R Err)),
    window_open this ->
    WindowWhen.subjects this = finished ++ [current] ->
    let this' :=
      WindowWhen.step this (WindowWhen.NotifierError (T:=T) (R:=R) err) in
    WindowWhen.subjects this'
    = finished ++ [Recorder.mk true (Recorder.received current ++ [Error err])]
    /\ WindowWhen.destination this'
       = Recorder.mk true
           (Recorder.received (WindowWhen.destination this) ++ [Error err])
    /\ WindowWhen.closingNotification this'
       = Some {| isUnsubscribed := true |}
    /\ WindowWhen.selectorCalls this' = WindowWhen.selectorCalls this
    /\ WindowWhen.run later this' = this'.
Proof.
  intros T R Err Obs this finished current err later Hopen Hsubs this'.
  subst this'. cbn [WindowWhen.step].
  rewrite (Inner_error_open _ _ _ _ Hopen Hsubs).
  split; [done | split; [done | split; [done | split; [done|]]]].
  apply halted_run. apply halted_terminal; [|done].
  destruct (window_open_subjects _ Hopen) as (f & c & Hsubs' & _ & _ & Hfin).
  rewrite Hsubs in Hsubs'. by apply app_inj_tail in Hsubs' as [-> _].
Qed.

(** The notifier errors with 5 after the values 1 and 2; the source and a
    notifier go on. *)
Lemma X11_witness :
  WindowWhen.subjects
    (WindowWhen.step
       (WindowWhen.run (R:=Z) [WindowWhen.SrcNext 1; WindowWhen.SrcNext 2]%Z
          (WindowExamples.fresh WindowExamples.always_returns))
       (WindowWhen.NotifierError (R:=Z) 5))
  = [Recorder.mk true [Next 1%Z; Next 2%Z; Error 5]].
Proof.
  refine (proj1
    (X11_windowWhen_notifier_errors Z Z nat unit
       (WindowWhen.run (R:=Z) [WindowWhen.SrcNext 1; WindowWhen.SrcNext 2]%Z
          (WindowExamples.fresh WindowExamples.always_returns))
       [] (Recorder.mk false [Next 1; Next 2]%Z) 5 WindowExamples.mixed
       _ eq_refl)).
  split; [reflexivity | reflexivity | reflexivity |].
  exists [], (Recorder.mk false [Next 1; Next 2]%Z).
  split; [reflexivity | split; [reflexivity | split; [reflexivity|]]].
  constructor.
Defined.

(** X12. When a closing notifier cuts the current window and the closing
    selector throws, at any open and not only the first: the current window
    is completed, a new window is created and emitted, then the outer
    destination and the new window are given the error, and no later event
    changes anything. *)
Theorem X12_windowWhen_selector_throws_at_a_later_open :
  forall (T R Err Obs : Type) (this : WindowWhen.WindowSubscriber T Err Obs)
         (finished : list (Recorder.t T Err)) (current : Recorder.t T Err)
         (cut : WindowWhen.Event T R Err) (err : Err)
         (later : list (WindowWhen.Event T R Err)),
    window_open this ->
    WindowWhen.subjects this = finished ++ [current] ->
    opens cut = 1 ->
    WindowWhen.closingSelector this (WindowWhen.selectorCalls this)
    = Throws err ->
    let this' := WindowWhen.step this cut in
    WindowWhen.subjects this'
    = finished
        ++ [Recorder.mk true (Recorder.received current ++ [Complete]);
            Recorder.mk true [Error err]]
    /\ WindowWhen.destination this'
       = Recorder.mk true
           (Recorder.received (WindowWhen.destination this)
              ++ [Next (S (length finished)); Error err])
    /\ WindowWhen.selectorCalls this' = S (WindowWhen.selectorCalls this)
    /\ WindowWhen.run later this' = this'.
Proof.
  intros T R Err Obs this finished current cut err later
         Hopen Hsubs Hcut Hthrow this'.
  assert (Hstep : this' = WindowWhen.openWindow true this).
  { subst this'. pose proof (window_open_notifier _ Hopen) as Hn.
    destruct cut; try discriminate Hcut; cbn [WindowWhen.step];
      unfold WindowWhen.Inner_next, WindowWhen.Inner_complete,
        WindowWhen.notifyNext, WindowWhen.notifyComplete,
        WindowWhen.notifier_active;
      by rewrite Hn. }
  rewrite Hstep, (openWindow_throws _ _ _ _ Hopen Hsubs Hthrow).
  rewrite <- app_assoc.
  split; [done | split; [done | split; [done|]]].
  apply halted_run.
  destruct (window_open_subjects _ Hopen) as (f & c & Hsubs' & _ & _ & Hfin).
  rewrite Hsubs in Hsubs'. apply app_inj_tail in Hsubs' as [<- _].
  split; [done | done |].
  cbn [WindowWhen.subjects]. apply Forall_app.
  split; [done | by repeat constructor].
Qed.

(** The selector throws at its second call, when the notifier cuts the
    first window after the value 1. *)
Lemma X12_witness :
  WindowWhen.subjects
    (WindowWhen.step
       (WindowWhen.run (R:=Z) [WindowWhen.SrcNext 1%Z]
          (WindowExamples.fresh throws_from_second_call))
       (WindowWhen.NotifierNext 0%Z))
  = [Recorder.mk true [Next 1%Z; Complete]; Recorder.mk true [Error 5]].
Proof.
  refine (proj1
    (X12_windowWhen_selector_throws_at_a_later_open Z Z nat unit
       (WindowWhen.run (R:=Z) [WindowWhen.SrcNext 1%Z]
          (WindowExamples.fresh throws_from_second_call))
       [] (Recorder.mk false [Next 1%Z]) (WindowWhen.NotifierNext 0%Z) 5
       WindowExamples.mixed _ eq_refl eq_refl eq_refl)).
  split; [reflexivity | reflexivity | reflexivity |].
  exists [], (Recorder.mk false [Next 1%Z]).
  split; [reflexivity | split; [reflexivity | split; [reflexivity|]]].
  constructor.
Defined.

(** X13. Once the source of a subscriber in the state "window-open" has
    completed or errored, no later event changes anything: a late value of
    the notifier opens no window, and a late value of the source reaches
    none. *)
Theorem X13_windowWhen_nothing_after_the_source_ends :
  forall (T R Err Obs : Type) (this : WindowWhen.WindowSubscriber T Err Obs)
         (terminal : WindowWhen.Event T R Err)
         (later : list (WindowWhen.Event T R Err)),
    window_open this ->
    terminal = WindowWhen.SrcComplete
    \/ (exists err, terminal = WindowWhen.SrcError err) ->
    WindowWhen.run later (WindowWhen.step this terminal)
    = WindowWhen.step this terminal
    /\ halted (WindowWhen.step this terminal).
Proof.
  intros T R Err Obs this terminal later Hopen Hterm.
  destruct (window_open_subjects _ Hopen)
    as (finished & current & Hsubs & _ & _ & Hfin).
  assert (Hhalt : halted (WindowWhen.step this terminal)).
  { destruct Hterm as [-> | (err & ->)]; cbn [WindowWhen.step].
    - rewrite (window_complete_open _ _ _ Hopen Hsubs).
      by apply halted_terminal.
    - rewrite (window_error_open _ _ _ _ Hopen Hsubs).
      by apply halted_terminal. }
  split; [by apply halted_run | done].
Qed.

(** The source completes after 1 and 2; then a notifier fires and the
    source emits 4. *)
Lemma X13_witness :
  WindowWhen.run WindowExamples.mixed
    (WindowWhen.step (WindowExamples.fresh WindowExamples.always_returns)
       (WindowWhen.SrcComplete (R:=Z)))
  = WindowWhen.step (WindowExamples.fresh WindowExamples.always_returns)
      (WindowWhen.SrcComplete (R:=Z)).
Proof.
  refine (proj1
    (X13_windowWhen_nothing_after_the_source_ends Z Z nat unit
       (WindowExamples.fresh WindowExamples.always_returns)
       WindowWhen.SrcComplete WindowExamples.mixed _ (or_introl eq_refl))).
  split; [reflexivity | reflexivity | reflexivity |].
  exists [], Recorder.create.
  split; [reflexivity | split; [reflexivity | split; [reflexivity|]]].
  constructor.
Defined.

Section WindowLogs.
Import WindowWhen.
Context {T R Err Obs : Type}.
Implicit Types (this : WindowSubscriber T Err Obs).

Lemma window_logs_run (trace : list (Event T R Err)) this
    (finished : list (Recorder.t T Err)) (current : list T) :
  window_open this ->
  never_throws (closingSelector this) ->
  Forall (fun ev => windowing_event ev = true) trace ->
  subjects this = finished ++ [Recorder.mk false (Next <$> current)] ->
  subjects (run trace this) = finished ++ window_logs current trace.
Proof.
  revert this finished current.
  induction trace as [|ev trace IH]; intros this finished current
    Hopen Hsel Hall Hsubs; [done|].
  apply Forall_cons_1 in Hall as [Hev Hall].
  change (run (ev :: trace) this) with (run trace (step this ev)).
  destruct (window_open_step this ev Hopen Hsel Hev) as (Hopen' & Hsel' & _).
  assert (Hsel1 : never_throws (closingSelector (step this ev)))
    by (by rewrite Hsel').
  pose proof (window_open_not_closed _ Hopen) as Hnc.
  pose proof (window_open_notifier _ Hopen) as Hn.
  pose proof (window_open_destination _ Hopen) as Hd.
  destruct (window_open_subjects _ Hopen) as (f & c & Hsubs' & Hw & _).
  rewrite Hsubs in Hsubs'. apply app_inj_tail in Hsubs' as [<- <-].
  assert (Hcut : subjects (openWindow true this)
                 = (finished ++
                      [Recorder.mk true ((Next <$> current) ++ [Complete])])
                     ++ [Recorder.mk false (Next <$> [])]).
  { destruct (Hsel (selectorCalls this)) as [notifier Hret].
    by rewrite (openWindow_returns _ true _ _ _ Hsubs Hw eq_refl Hd Hret). }
  destruct ev as [v|e| |x|e|]; try discriminate Hev; cbn [window_logs].
  - apply (IH _ _ _ Hopen' Hsel1 Hall). cbn [step].
    rewrite (window_next_open _ v _ _ Hnc Hsubs Hw eq_refl).
    cbn [with_subjects subjects Recorder.received]. by rewrite fmap_app.
  - rewrite (IH _
               (finished ++
                  [Recorder.mk true ((Next <$> current) ++ [Complete])])
               [] Hopen' Hsel1 Hall); [by rewrite <- app_assoc|].
    cbn [step]. unfold Inner_next, notifyNext, notifier_active.
    by rewrite Hn.
  - rewrite (IH _
               (finished ++
                  [Recorder.mk true ((Next <$> current) ++ [Complete])])
               [] Hopen' Hsel1 Hall); [by rewrite <- app_assoc|].
    cbn [step]. unfold Inner_complete, notifyComplete, notifier_active.
    by rewrite Hn.
Qed.
End WindowLogs.

(** X14. While the source is alive, the closing selector returns and no
    notifier fails, each window holds exactly the source values that
    arrived while it was the current one: the windows are the segments the
    notifier values and completions cut the source into, each closed one
    ending with a completion and the last one still open. *)
Theorem X14_windowWhen_windows_are_the_segments :
  forall (T R Err Obs : Type) (op : Operators.WindowOperator Err Obs)
         (trace : list (WindowWhen.Event T R Err)),
    never_throws (Operators.WindowOperator_closingSelector op) ->
    Forall (fun ev => windowing_event ev = true) trace ->
    WindowWhen.subjects
      (WindowWhen.run trace
         (Operators.WindowOperator_call (T:=T) op Recorder.create))
    = window_logs [] trace.
Proof.
  intros T R Err Obs op trace Hsel Hall.
  pose proof (window_open_fresh (T:=T) _ Hsel) as Hfresh.
  destruct (Hsel 0) as [notifier Hret].
  apply (window_logs_run trace _ [] [] Hfresh); [|done|].
  - unfold Operators.WindowOperator_call.
    by rewrite (new_WindowSubscriber_returns Recorder.create _ _ eq_refl Hret).
  - unfold Operators.WindowOperator_call.
    by rewrite (new_WindowSubscriber_returns Recorder.create _ _ eq_refl Hret).
Qed.

(** The source 1,2,3,4 cut by a notifier value after 2 and by a notifier
    completion after 3. *)
Lemma X14_witness :
  WindowWhen.subjects
    (WindowWhen.run WindowExamples.mixed
       (WindowExamples.fresh WindowExamples.always_returns))
  = [Recorder.mk true [Next 1%Z; Next 2%Z; Complete];
     Recorder.mk true [Next 3%Z; Complete];
     Recorder.mk false [Next 4%Z]].
Proof.
  exact (X14_windowWhen_windows_are_the_segments Z Z nat unit
    {| Operators.WindowOperator_closingSelector :=
         WindowExamples.always_returns |}
    WindowExamples.mixed
    (fun n => ex_intro _ () eq_refl)
    ltac:(repeat constructor)).
Defined.

(** ** IsEmpty: the values are never looked at *)

Lemma isEmpty_closed_stopped {Err : Type}
    (log : list (Notification bool Err)) (selfClosed : bool) :
  IsEmpty.IsEmpty_closed (IsEmpty.mkIsEmpty (Recorder.mk true log) selfClosed)
  = true.
Proof. unfold IsEmpty.IsEmpty_closed. cbn. apply orb_true_r. Qed.

Lemma isEmpty_step_open_closed {T Err : Type}
    (this : IsEmpty.IsEmptySubscriber Err) (ev : IsEmpty.Event T Err) :
  IsEmpty.IsEmpty_closed this = false ->
  IsEmpty.IsEmpty_closed (IsEmpty.step this ev) = true.
Proof.
  intros Hopen. destruct ev as [v|e|].
  - cbn [IsEmpty.step]. rewrite (isEmpty_next_open _ _ Hopen).
    apply isEmpty_closed_stopped.
  - rewrite (isEmpty_error_open (T:=T) _ _ Hopen).
    apply isEmpty_closed_stopped.
  - rewrite (isEmpty_complete_open (T:=T) _ Hopen).
    apply isEmpty_closed_stopped.
Qed.

Lemma isEmpty_run_answer {T Err : Type} (this : IsEmpty.IsEmptySubscriber Err)
    (trace : list (IsEmpty.Event T Err)) :
  IsEmpty.IsEmpty_closed this = false ->
  IsEmpty.output (IsEmpty.run trace this)
  = IsEmpty.output this ++ isEmpty_answer trace.
Proof.
  intros Hopen. destruct trace as [|ev trace].
  { cbn. by rewrite app_nil_r. }
  change (IsEmpty.run (ev :: trace) this)
    with (IsEmpty.run trace (IsEmpty.step this ev)).
  rewrite isEmpty_run_closed.
  - destruct ev as [v|e|]; cbn [isEmpty_answer].
    + cbn [IsEmpty.step]. by rewrite (isEmpty_next_open _ _ Hopen).
    + by rewrite (isEmpty_error_open (T:=T) _ _ Hopen).
    + by rewrite (isEmpty_complete_open (T:=T) _ Hopen).
  - by apply isEmpty_step_open_closed.
Qed.

(** X15. IsEmpty never looks at a value: replacing the values of the source
    by any others leaves what the destination is given unchanged. And only
    the first event of the source counts: after it, nothing the source does
    changes the subscriber. *)
Theorem X15_isEmpty_ignores_the_values :
  forall (T U Err : Type) (f : T -> U) (observer : Recorder.t bool Err)
         (first : IsEmpty.Event T Err) (rest : list (IsEmpty.Event T Err)),
    Recorder.stopped observer = false ->
    IsEmpty.output
      (IsEmpty.run (map_values f <$> first :: rest)
         (Operators.IsEmptyOperator_call observer))
    = IsEmpty.output
        (IsEmpty.run (first :: rest) (Operators.IsEmptyOperator_call observer))
    /\ IsEmpty.run (first :: rest) (Operators.IsEmptyOperator_call observer)
       = IsEmpty.step (Operators.IsEmptyOperator_call observer) first.
Proof.
  intros T U Err f observer first rest Hobs.
  set (this := Operators.IsEmptyOperator_call observer).
  assert (Hopen : IsEmpty.IsEmpty_closed this = false).
  { unfold IsEmpty.IsEmpty_closed. cbn. by rewrite Hobs. }
  split.
  - rewrite !isEmpty_run_answer by done. by destruct first.
  - change (IsEmpty.run (first :: rest) this)
      with (IsEmpty.run rest (IsEmpty.step this first)).
    apply isEmpty_run_closed. by apply isEmpty_step_open_closed.
Qed.

(** A source that emits 0 and then errors, and the same with 42 for 0. *)
Lemma X15_witness :
  IsEmpty.output
    (IsEmpty.run [IsEmpty.SrcNext 42%Z; IsEmpty.SrcError 3]
       (Operators.IsEmptyOperator_call Recorder.create))
  = IsEmpty.output
      (IsEmpty.run [IsEmpty.SrcNext 0%Z; IsEmpty.SrcError 3]
         (Operators.IsEmptyOperator_call Recorder.create)).
Proof.
  exact (proj1 (X15_isEmpty_ignores_the_values Z Z nat (fun _ => 42%Z)
                  Recorder.create (IsEmpty.SrcNext 0%Z) [IsEmpty.SrcError 3]
                  eq_refl)).
Defined.
